(** * Smart Glasses: the recognition core, embedded and verified

    The development covers the two pieces of the repository that carry
    algorithmic content:

    - [utils.normalize_landmarks] (with the padding done by
      [utils.extract_landmarks]), the wrist-relative normalisation of a
      126-element landmark vector;
    - the recognition part of the frame loop of [inference.main] and
      [deploy_pi.main]: confidence threshold, stability buffer, cooldown
      gate, announcement;
    - around them: [utils.get_sign_text], the collection loop of
      [collect_data.main] with the table it writes, and the file names and
      labels of [train_model.load_data].

    Numbers.  Coordinates, confidences and timestamps are Python floats in
    the source.  They are embedded as exact rationals in canonical form
    ([Qc]), so that [=] is the comparison [==] of the source on finite
    values and [x - x = 0], [x - 0 = x] hold on the nose; rounding, NaN and
    infinities are outside the model.

    Arrays.  A numpy array is a [list Qc] living in a store; an index that
    is out of range raises [IndexError], which is the [None] outcome of the
    store monad.  Slicing clamps to the array, as numpy does. *)

From Stdlib Require Import QArith Qcanon.
From stdpp Require Import base numbers list gmap strings pretty.

(** ** The store of numpy arrays *)

Module Store.

Definition loc := positive.

Abbreviation heap := (gmap loc (list Qc)).

(** A computation reads and writes the store and may raise. *)
Definition M (A : Type) : Type := heap → option (A * heap).

Definition ret {A} (x : A) : M A := λ h, Some (x, h).

Definition bind {A B} (m : M A) (k : A → M B) : M B :=
  λ h, match m h with
       | Some (x, h') => k x h'
       | None => None
       end.

#[global] Instance M_ret : MRet M := @ret.
#[global] Instance M_bind : MBind M := λ A B k m, bind m k.

(** [arr.copy()] and [np.array(xs)]: a new array at an unused address. *)
Definition np_array (xs : list Qc) : M loc :=
  λ h, let r := fresh (dom h) in Some (r, <[r := xs]> h).

Definition copy (r : loc) : M loc :=
  λ h, match h !! r with
       | Some a => np_array a h
       | None => None
       end.

(** [arr[i]] for a non-negative [i]: a scalar, not a view. *)
Definition getitem (r : loc) (i : nat) : M Qc :=
  λ h, match h !! r with
       | Some a => match a !! i with
                   | Some x => Some (x, h)
                   | None => None
                   end
       | None => None
       end.

(** [arr[i] -= w]. *)
Definition isub (r : loc) (i : nat) (w : Qc) : M unit :=
  λ h, match h !! r with
       | Some a => match a !! i with
                   | Some x => Some (tt, <[r := <[i := (x - w)%Qc]> a]> h)
                   | None => None
                   end
       | None => None
       end.

(** [np.any(xs)]: some element is non-zero. *)
Definition np_any (xs : list Qc) : bool :=
  existsb (λ x, negb (bool_decide (x = 0%Qc))) xs.

(** [arr[s:e]] for [0 <= s <= e]. *)
Definition slice (s e : nat) (a : list Qc) : list Qc :=
  take (e - s) (drop s a).

Definition any_slice (r : loc) (s e : nat) : M bool :=
  λ h, match h !! r with
       | Some a => Some (np_any (slice s e a), h)
       | None => None
       end.

(** [range(start, stop, step)] for non-negative arguments. *)
Definition py_range (start stop step : nat) : list nat :=
  (λ k, start + step * k) <$> seq 0 ((stop - start + (step - 1)) / step).

(** [for i in idxs: body(i)]. *)
Fixpoint for_each (idxs : list nat) (body : nat → M unit) : M unit :=
  match idxs with
  | [] => mret tt
  | i :: rest => body i;; for_each rest body
  end.

End Store.

(** ** utils.py *)

Module Utils.
Import Store.

(** [normalize_landmarks(landmarks)], utils.py lines 53-83. *)
Definition normalize_landmarks (landmarks : loc) : M loc :=
  landmarks ← copy landmarks;
  for_each (py_range 0 2 1) (λ hand_idx,
    let start_idx := hand_idx * 63 in
    let end_idx := start_idx + 63 in
    present ← any_slice landmarks start_idx end_idx;
    if present : bool then
      wrist_x ← getitem landmarks start_idx;
      wrist_y ← getitem landmarks (start_idx + 1);
      wrist_z ← getitem landmarks (start_idx + 2);
      for_each (py_range start_idx end_idx 3) (λ i,
        isub landmarks i wrist_x;;
        isub landmarks (i + 1) wrist_y;;
        isub landmarks (i + 2) wrist_z)
    else mret tt);;
  mret landmarks.

(** A detected hand, as MediaPipe reports it: its landmarks in order. *)
Definition hand_landmarks := list (Qc * Qc * Qc).

(** The list built by lines 30-42 of [extract_landmarks]: the
    coordinates of at most two hands, then zeros up to 126. *)
Definition collect (multi_hand_landmarks : list hand_landmarks) : list Qc :=
  let landmarks :=
    hand ← take (2 `min` length multi_hand_landmarks) multi_hand_landmarks;
    '(x, y, z) ← hand; [x; y; z] in
  landmarks ++ replicate (126 - length landmarks) 0%Qc.

(** [extract_landmarks(frame, hands)], utils.py lines 29-50, from the
    detector's result on: [None] when no hand was detected. *)
Definition extract_landmarks (multi_hand_landmarks : list hand_landmarks)
  : M (option loc) :=
  if bool_decide (multi_hand_landmarks = []) then mret None
  else
    landmarks_array ← np_array (take 126 (collect multi_hand_landmarks));
    normalized ← normalize_landmarks landmarks_array;
    mret (Some normalized).

End Utils.

(** ** What [normalize_landmarks] does to the array it works on

    All the writes of [normalize_landmarks] go to its private copy, so its
    effect is a function of the contents of the input array alone. *)

Module Normalize.
Import Store Utils.

(** One [arr[i] -= w] on the contents. *)
Definition sub_at (i : nat) (w : Qc) (a : list Qc) : option (list Qc) :=
  x ← a !! i; Some (<[i := (x - w)%Qc]> a).

(** One round of the inner loop. *)
Definition sub_triple (w : Qc * Qc * Qc) (i : nat) (a : list Qc)
  : option (list Qc) :=
  let '(wx, wy, wz) := w in
  a ← sub_at i wx a; a ← sub_at (i + 1) wy a; sub_at (i + 2) wz a.

(** The inner loop. *)
Fixpoint sub_loop (idxs : list nat) (w : Qc * Qc * Qc) (a : list Qc)
  : option (list Qc) :=
  match idxs with
  | [] => Some a
  | i :: rest => a ← sub_triple w i a; sub_loop rest w a
  end.

(** The coordinate of the wrist that column [c] of a landmark is
    measured against. *)
Definition pick (c : nat) (w : Qc * Qc * Qc) : Qc :=
  match c with
  | 0 => w.1.1
  | 1 => w.1.2
  | _ => w.2
  end.

(** The indices [start, start + 3, ...] of [k] landmarks. *)
Definition triples (start k : nat) : list nat :=
  (λ t, start + 3 * t) <$> seq 0 k.

(** One round of the outer loop. *)
Definition norm_hand (hand_idx : nat) (a : list Qc) : option (list Qc) :=
  let start_idx := hand_idx * 63 in
  let end_idx := start_idx + 63 in
  if np_any (slice start_idx end_idx a) then
    wrist_x ← a !! start_idx;
    wrist_y ← a !! (start_idx + 1);
    wrist_z ← a !! (start_idx + 2);
    sub_loop (py_range start_idx end_idx 3) (wrist_x, wrist_y, wrist_z) a
  else Some a.

(** The test of line 71: the slice of this hand has a non-zero element. *)
Definition present (hand_idx : nat) (a : list Qc) : bool :=
  np_any (slice (hand_idx * 63) (hand_idx * 63 + 63) a).

(** Both rounds. *)
Definition norm_array (a : list Qc) : option (list Qc) :=
  a ← norm_hand 0 a; norm_hand 1 a.

(** [a'] is [a] with every hand that has data measured from its own
    wrist, and every hand without data left as it is. *)
Definition wrist_relative (a a' : list Qc) : Prop :=
  length a' = length a ∧
  (∀ hand, hand < 2 →
    (present hand a = true →
       ∀ t c, t < 21 → c < 3 →
         a' !! (hand * 63 + 3 * t + c)
         = (x ← a !! (hand * 63 + 3 * t + c);
            w ← a !! (hand * 63 + c); Some (x - w)%Qc)) ∧
    (present hand a = false →
       slice (hand * 63) (hand * 63 + 63) a'
       = slice (hand * 63) (hand * 63 + 63) a)) ∧
  ∀ j, 126 ≤ j → a' !! j = a !! j.

(** Sample vectors.  One hand whose slots hold 0.01, 0.02, ..., 0.63. *)
Definition single_hand : list Qc :=
  (λ n, Q2Qc (Z.of_nat n # 100)) <$> seq 1 63.

(** The same hand after normalisation: 0, 0, 0, 0.03, 0.03, 0.03, ... *)
Definition single_hand_normalized : list Qc :=
  (λ j, Q2Qc (Z.of_nat (3 * (j / 3)) # 100)) <$> seq 0 63.

(** That hand alone in a full vector. *)
Definition one_of_two : list Qc := single_hand ++ replicate 63 0%Qc.

(** A hand whose 21 landmarks all sit at (0.5, 0.5, 0.5). *)
Definition coincident_hand : list Qc :=
  replicate 63 (Q2Qc (1 # 2)) ++ replicate 63 0%Qc.

(** A store with one array. *)
Definition one_array (a : list Qc) : heap := {[1%positive := a]}.

(** The store after a computation that left [a'] in the array at [r]. *)
Definition stored {A} (r : loc) (x : A) (h : heap) (res : option (list Qc))
  : option (A * heap) :=
  a' ← res; Some (x, <[r := a']> h).

End Normalize.

(** ** inference.py and deploy_pi.py: recognition in the frame loop

    Both [main] functions carry the same recognition code in the body of
    their [while True] loop (inference.py lines 156-201 and 262-268,
    deploy_pi.py lines 252-287).  One turn of the loop is a step on the
    recognition variables. *)

Module Pipeline.

Record config := Config {
  confidence_threshold : Qc;
  stability_frames : Z;
  cooldown_seconds : Qc
}.

(** [last_announced_sign] and [last_announcement_time]. *)
Record announcement := Announcement {
  last_announced_sign : option string;
  last_announcement_time : Qc
}.

(** The recognition variables of [main]. *)
Record state := State {
  stability_buffer : list string;
  announced : announcement
}.

(** Their values before the loop (lines 122-124). *)
Definition initial : state := State [] (Announcement None 0%Qc).

(** What one turn of the loop receives: for a frame with hands
    ([landmarks is not None]) the top label [labels[max_idx]] and its
    probability [prediction[max_idx]]; the clock [time.time()]; whether
    the key read at the end of the turn is 'r' (inference.py only). *)
Record frame := Frame {
  prediction : option (string * Qc);
  current_time : Qc;
  reset_key : bool
}.

(** Lines 171-175: [append], then [pop(0)] when over length. *)
Definition push (stability_frames : Z) (stability_buffer : list string)
    (predicted_sign : string) : list string :=
  let stability_buffer := stability_buffer ++ [predicted_sign] in
  if bool_decide (stability_frames < Z.of_nat (length stability_buffer))%Z
  then drop 1 stability_buffer
  else stability_buffer.

(** Lines 178-179: the buffer is full of [predicted_sign]. *)
Definition stable (stability_frames : Z) (stability_buffer : list string)
    (predicted_sign : string) : bool :=
  bool_decide (Z.of_nat (length stability_buffer) = stability_frames)
  && bool_decide (Forall (λ s, s = predicted_sign) stability_buffer).

(** The stability tracker on a confident label: lines 171-179. *)
Definition observe (stability_frames : Z) (stability_buffer : list string)
    (predicted_sign : string) : list string * bool :=
  let stability_buffer :=
    push stability_frames stability_buffer predicted_sign in
  (stability_buffer, stable stability_frames stability_buffer predicted_sign).

(** The tracker fed a run of confident labels, with its answers. *)
Fixpoint observe_all (stability_frames : Z) (stability_buffer : list string)
    (signs : list string) : list string * list bool :=
  match signs with
  | [] => (stability_buffer, [])
  | sign :: signs =>
      let '(stability_buffer, b) :=
        observe stability_frames stability_buffer sign in
      let '(stability_buffer, bs) :=
        observe_all stability_frames stability_buffer signs in
      (stability_buffer, b :: bs)
  end.

(** The announcement gate: lines 184-192 without the output. *)
Definition should_announce (cooldown_seconds : Qc) (predicted_sign : string)
    (current_time : Qc) (ann : announcement) : bool * announcement :=
  if bool_decide (Some predicted_sign ≠ last_announced_sign ann)
     || bool_decide
          (cooldown_seconds < current_time - last_announcement_time ann)%Qc
  then (true, Announcement (Some predicted_sign) current_time)
  else (false, ann).

(** Lines 156-201: the new variables, and the sign announced with its
    confidence when [tts.speak] is called. *)
Definition recognise (cfg : config) (st : state) (fr : frame)
  : state * option (string * Qc) :=
  match prediction fr with
  | Some (predicted_sign, confidence) =>
      if bool_decide (confidence_threshold cfg ≤ confidence)%Qc then
        let '(stability_buffer, is_stable) :=
          observe (stability_frames cfg) (stability_buffer st) predicted_sign in
        if is_stable then
          let '(fire, ann) :=
            should_announce (cooldown_seconds cfg) predicted_sign
              (current_time fr) (announced st) in
          if fire then (State [] ann, Some (predicted_sign, confidence))
          else (State stability_buffer ann, None)
        else (State stability_buffer (announced st), None)
      else (State [] (announced st), None)
  | None => (State [] (announced st), None)
  end.

(** inference.py lines 265-268: the reset key. *)
Definition handle_key (st : state) (fr : frame) : state :=
  if reset_key fr
  then State [] (Announcement None (last_announcement_time (announced st)))
  else st.

(** One turn of the loop. *)
Definition step (cfg : config) (st : state) (fr : frame)
  : state * option (string * Qc) :=
  let '(st, out) := recognise cfg st fr in (handle_key st fr, out).

(** The loop over a stream of frames, with what each turn announced. *)
Fixpoint run (cfg : config) (st : state) (frames : list frame)
  : state * list (option (string * Qc)) :=
  match frames with
  | [] => (st, [])
  | fr :: frames =>
      let '(st, out) := step cfg st fr in
      let '(st, outs) := run cfg st frames in
      (st, out :: outs)
  end.

(** The configuration and the stream of the end-to-end scenario:
    threshold 0.7, three frames for stability, two seconds of cooldown;
    "Hello" at confidence 0.9 at the time given. *)
Definition scenario_config : config :=
  Config (Q2Qc (7 # 10)) 3 (Q2Qc 2).

Definition hello (t : Qc) : frame :=
  Frame (Some ("Hello", Q2Qc (9 # 10))) t false.

Definition no_hands (t : Qc) : frame := Frame None t false.

Definition first_run : list frame :=
  [hello (Q2Qc 0); hello (Q2Qc (1 # 10)); hello (Q2Qc (2 # 10))].

Definition second_run : list frame :=
  [hello (Q2Qc (3 # 10)); hello (Q2Qc (4 # 10)); hello (Q2Qc (5 # 10))].

Definition third_run : list frame :=
  [hello (Q2Qc (21 # 10)); hello (Q2Qc (22 # 10)); hello (Q2Qc (23 # 10))].

Definition said_hello : option (string * Qc) :=
  Some ("Hello", Q2Qc (9 # 10)).

(** The variables after two confident frames of "Hello", and after the
    announcement at t = 0.2. *)
Definition two_hellos : state :=
  State ["Hello"; "Hello"] (Announcement None 0%Qc).

Definition announced_at (t : Qc) (stability_buffer : list string) : state :=
  State stability_buffer (Announcement (Some "Hello") t).

(** "Hello" at confidence 0.65, below the threshold of the scenario. *)
Definition unsure_hello (t : Qc) : frame :=
  Frame (Some ("Hello", Q2Qc (65 # 100))) t false.

End Pipeline.

(** ** utils.py: the top class of a prediction *)

Module Classify.

(** [np.argmax] on a one-dimensional array: the index of the first
    occurrence of the largest element.  [argmax_from] scans the rest of the
    array with the best element seen so far. *)
Fixpoint argmax_from (best_idx : nat) (best : Qc) (idx : nat) (xs : list Qc)
  : nat :=
  match xs with
  | [] => best_idx
  | x :: xs =>
      if bool_decide (best < x)%Qc then argmax_from idx x (S idx) xs
      else argmax_from best_idx best (S idx) xs
  end.

(** [c] is the largest element of [xs], and [i] the first place where it
    is. *)
Definition first_max (xs : list Qc) (i : nat) (c : Qc) : Prop :=
  xs !! i = Some c
  ∧ (∀ j x, xs !! j = Some x → (x ≤ c)%Qc)
  ∧ (∀ j x, j < i → xs !! j = Some x → (x < c)%Qc).

(** On an empty array [np.argmax] raises [ValueError]. *)
Definition argmax (xs : list Qc) : option nat :=
  match xs with
  | [] => None
  | x :: xs => Some (argmax_from 0 x 1 xs)
  end.

(** [get_sign_text(prediction, labels, threshold)], utils.py lines
    148-166.  [None] is an exception; the label is looked up only when the
    confidence reaches the threshold. *)
Definition get_sign_text (prediction : list Qc) (labels : list string)
    (threshold : Qc) : option (option string * Qc) :=
  max_idx ← argmax prediction;
  confidence ← prediction !! max_idx;
  if bool_decide (threshold ≤ confidence)%Qc then
    label ← labels !! max_idx; Some (Some label, confidence)
  else Some (None, confidence).

(** Three class probabilities and their labels. *)
Definition three_classes : list Qc :=
  [Q2Qc (1 # 10); Q2Qc (8 # 10); Q2Qc (1 # 10)].

Definition three_labels : list string := ["A"; "Hello"; "Yes"].

End Classify.

(** ** collect_data.py: the collection loop *)

Module CollectData.
Import Utils.

(** What [cv2.waitKey(1) & 0xFF] is compared with. *)
Inductive key := key_s | key_q | key_other.

(** [collecting], [collected_samples] and [data_samples]. *)
Record state := State {
  collecting : bool;
  collected_samples : Z;
  data_samples : list (list Qc)
}.

(** Their values before the loop (lines 48-50). *)
Definition initial : state := State false 0 [].

(** What one turn of the loop receives: whether a frame was captured, the
    hands the detector found in it, and the key read at its end. *)
Record turn := Turn {
  captured : bool;
  multi_hand_landmarks : list hand_landmarks;
  pressed : key
}.

(** Lines 90-103: the row stored for a detection. *)
Definition sample (multi_hand_landmarks : list hand_landmarks) : list Qc :=
  take 126 (collect multi_hand_landmarks).

(** Lines 78-104: the detection is stored while collecting is on and the
    target is not reached. *)
Definition store_sample (samples : Z) (st : state) (tn : turn) : state :=
  if bool_decide (multi_hand_landmarks tn ≠ [])
     && collecting st
     && bool_decide (collected_samples st < samples)%Z
  then State (collecting st) (collected_samples st + 1)
         (data_samples st ++ [sample (multi_hand_landmarks tn)])
  else st.

(** How a turn of the loop ends: with the next turn, with a [break], or
    with the [ZeroDivisionError] of line 122, where the progress
    [collected_samples / args.samples] is computed. *)
Inductive flow := go_on | stop | crash.

(** One turn of the loop, lines 63-152: the new variables, and how the
    turn ends. *)
Definition step (samples : Z) (st : state) (tn : turn) : state * flow :=
  if captured tn then
    let st := store_sample samples st tn in
    if bool_decide (samples = 0%Z) then (st, crash)
    else
      match pressed tn with
      | key_q => (st, stop)
      | pressed =>
          let st :=
            match pressed with
            | key_s =>
                State (negb (collecting st)) (collected_samples st)
                  (data_samples st)
            | _ => st
            end in
          if bool_decide (samples ≤ collected_samples st)%Z
          then (State false (collected_samples st) (data_samples st), stop)
          else (st, go_on)
      end
  else (st, stop).

(** The loop over the turns it is given, to the turn that ends it. *)
Fixpoint loop (samples : Z) (st : state) (turns : list turn) : state * flow :=
  match turns with
  | [] => (st, go_on)
  | tn :: turns =>
      match step samples st tn with
      | (st, go_on) => loop samples st turns
      | after => after
      end
  end.

(** Lines 170-177: the header of the CSV file. *)
Definition header : list string :=
  hand_idx ← seq 0 2;
  landmark_idx ← seq 0 21;
  [ "h" +:+ pretty hand_idx +:+ "_l" +:+ pretty landmark_idx +:+ "_x";
    "h" +:+ pretty hand_idx +:+ "_l" +:+ pretty landmark_idx +:+ "_y";
    "h" +:+ pretty hand_idx +:+ "_l" +:+ pretty landmark_idx +:+ "_z" ].

(** Lines 160-188: what is written once the loop is left by a [break],
    header first; nothing when no sample was stored. *)
Definition saved (after : state * flow)
  : option (list string * list (list Qc)) :=
  match after.2 with
  | stop =>
      if bool_decide (0 < length (data_samples after.1))
      then Some (header, data_samples after.1)
      else None
  | _ => None
  end.

(** What the loop keeps true of its variables. *)
Definition consistent (samples : Z) (st : state) : Prop :=
  collected_samples st = Z.of_nat (length (data_samples st))
  ∧ (collected_samples st ≤ 0 `max` samples)%Z
  ∧ Forall (λ row, length row = 126) (data_samples st).




End CollectData.

(** ** File names and labels

    [collect_data.main] writes the samples of a sign to [f"{sign}.csv"]
    (line 162); [train_model.load_data] and [app.list_collected] take the
    files that end with [.csv] and get the label back with
    [csv_file.replace('.csv', '')]. *)

Module Names.

(** [s.startswith(prefix)]. *)
Fixpoint startswith (s prefix : string) : bool :=
  match prefix, s with
  | EmptyString, _ => true
  | String a prefix, String b s => Ascii.eqb a b && startswith s prefix
  | String _ _, EmptyString => false
  end.

(** [s.endswith(suffix)]. *)
Fixpoint endswith (s suffix : string) : bool :=
  String.eqb s suffix
  || match s with
     | EmptyString => false
     | String _ s => endswith s suffix
     end.

(** [s.replace(old, new)] for a non-empty [old]: the occurrences of [old]
    are taken from left to right, without overlap; [skip] counts the
    characters of the current occurrence still to be passed. *)
Fixpoint replace_from (old new : string) (skip : nat) (s : string) : string :=
  match s with
  | EmptyString => EmptyString
  | String c rest =>
      match skip with
      | S skip => replace_from old new skip rest
      | O =>
          if startswith s old
          then new +:+ replace_from old new (String.length old - 1) rest
          else String c (replace_from old new 0 rest)
      end
  end.

Definition replace (s old new : string) : string := replace_from old new 0 s.


(** train_model.py line 35, app.py line 378. *)
Definition label_of (csv_file : string) : string := replace csv_file ".csv" "".


(** train_model.py lines 23-48: the lists [X] and [y] that [load_data]
    builds from the names in the directory.  [read_csv] gives the rows of a
    file, or [None] when [pd.read_csv] raises; [None] as a result is that
    exception or the [ValueError] of line 29. *)
Definition load_lists (listing : list string)
    (read_csv : string → option (list (list Qc)))
  : option (list (list Qc) * list string) :=
  let csv_files := filter (λ f, endswith f ".csv" = true) listing in
  if bool_decide (length csv_files = 0) then None
  else
    foldl (λ acc csv_file,
             '(X, y) ← acc;
             let label := label_of csv_file in
             features ← read_csv csv_file;
             Some (X ++ features, y ++ replicate (length features) label))
          (Some ([], [])) csv_files.

End Names.

(** ** The frame loop seen from outside *)

Module Trace.
Import Pipeline.

(** The label of a frame that passes the test of line 167. *)
Definition confident (cfg : config) (fr : frame) : option string :=
  match prediction fr with
  | Some (predicted_sign, confidence) =>
      if bool_decide (confidence_threshold cfg ≤ confidence)%Qc
      then Some predicted_sign
      else None
  | None => None
  end.

(** The announcements of a run, each with the clock of its turn. *)
Definition timeline (frames : list frame)
    (outs : list (option (string * Qc))) : list (Qc * string) :=
  omap (λ '(fr, out), (λ '(sign, _), (current_time fr, sign)) <$> out)
       (zip frames outs).

(** Every announcement in the list repeats the sign before it only when
    more than the cooldown has gone by; [ann] is what was announced last
    before the list. *)
Fixpoint debounced (cooldown : Qc) (ann : announcement)
    (events : list (Qc * string)) : Prop :=
  match events with
  | [] => True
  | (t, sign) :: events =>
      (Some sign = last_announced_sign ann →
       (cooldown < t - last_announcement_time ann)%Qc)
      ∧ debounced cooldown (Announcement (Some sign) t) events
  end.

(** The configuration of the scenario with a negative number of frames. *)
Definition negative_config : config :=
  Config (Q2Qc (7 # 10)) (-1) (Q2Qc 2).

End Trace.

(** ** Detections *)

Module Detection.
Import Utils.

(** Coordinate [c] of a landmark. *)
Definition coord (c : nat) (p : Qc * Qc * Qc) : Qc :=
  match c with
  | 0 => p.1.1
  | 1 => p.1.2
  | _ => p.2
  end.



(** The coordinates of a hand in a row, as lines 37-38 of utils.py append
    them. *)
Definition flat (hand : hand_landmarks) : list Qc :=
  '(x, y, z) ← hand; [x; y; z].




(** A hand of 21 landmarks on a diagonal, starting at the point given. *)
Definition diagonal_hand (x0 : Qc) : hand_landmarks :=
  (λ n, let v := (x0 + Q2Qc (Z.of_nat n # 100))%Qc in (v, v, v)) <$> seq 0 21.

End Detection.

Section normalize_refinement.
Import Store Utils Normalize.

Implicit Types (h : heap) (r : loc) (a : list Qc) (i : nat).

Lemma isub_stored r i w h a :
  h !! r = Some a → isub r i w h = stored r tt h (sub_at i w a).
Proof.
  intros Hr. unfold isub, stored, sub_at. rewrite Hr.
  by destruct (a !! i).
Qed.

Lemma stored_bind {A B} r (x : A) h res (k : A → M B) :
  (match stored r x h res with
   | Some (y, h') => k y h'
   | None => None
   end) = a' ← res; k x (<[r := a']> h).
Proof. by destruct res. Qed.

Lemma sub_triple_stored r i wx wy wz h a :
  h !! r = Some a →
  (isub r i wx;; isub r (i + 1) wy;; isub r (i + 2) wz) h
  = stored r tt h (sub_triple (wx, wy, wz) i a).
Proof.
  intros Hr. unfold mbind, M_bind, bind; cbn.
  rewrite (isub_stored _ _ _ _ _ Hr), stored_bind.
  destruct (sub_at i wx a) as [a1|]; [cbn | done].
  rewrite (isub_stored _ _ _ _ a1), stored_bind
    by apply lookup_insert_eq.
  destruct (sub_at (i + 1) wy a1) as [a2|]; [cbn | done].
  rewrite (isub_stored _ _ _ _ a2) by apply lookup_insert_eq.
  unfold stored. destruct (sub_at (i + 2) wz a2); [cbn | done].
  by rewrite !insert_insert_eq.
Qed.

Lemma sub_loop_stored r idxs wx wy wz : ∀ h a,
  h !! r = Some a →
  for_each idxs (λ i, isub r i wx;; isub r (i + 1) wy;; isub r (i + 2) wz) h
  = stored r tt h (sub_loop idxs (wx, wy, wz) a).
Proof.
  induction idxs as [|i idxs IH]; intros h a Hr.
  - cbn. unfold mret, M_ret, ret. by rewrite insert_id.
  - cbn [for_each sub_loop]. unfold mbind at 1, M_bind at 1, bind at 1.
    rewrite (sub_triple_stored _ _ _ _ _ _ _ Hr), stored_bind.
    destruct (sub_triple (wx, wy, wz) i a) as [a1|]; [|done].
    unfold mbind at 1; cbn [option_bind].
    rewrite (IH _ a1) by apply lookup_insert_eq.
    unfold stored. cbn.
    destruct (sub_loop idxs (wx, wy, wz) a1); [cbn | done].
    by rewrite insert_insert_eq.
Qed.

Lemma norm_hand_stored r hand_idx h a :
  h !! r = Some a →
  (let start_idx := hand_idx * 63 in
   let end_idx := start_idx + 63 in
   present ← any_slice r start_idx end_idx;
   if present : bool then
     wrist_x ← getitem r start_idx;
     wrist_y ← getitem r (start_idx + 1);
     wrist_z ← getitem r (start_idx + 2);
     for_each (py_range start_idx end_idx 3) (λ i,
       isub r i wrist_x;; isub r (i + 1) wrist_y;; isub r (i + 2) wrist_z)
   else mret tt) h
  = stored r tt h (norm_hand hand_idx a).
Proof.
  intros Hr. cbv zeta. unfold norm_hand.
  unfold mbind at 1, M_bind at 1, bind at 1, any_slice. rewrite Hr.
  destruct (np_any _).
  - unfold mbind at 1, M_bind at 1, bind at 1, getitem. rewrite Hr.
    destruct (a !! (hand_idx * 63)) as [wx|]; [|done].
    unfold mbind at 1, M_bind at 1, bind at 1, getitem. rewrite Hr.
    destruct (a !! (hand_idx * 63 + 1)) as [wy|]; [|done].
    unfold mbind at 1, M_bind at 1, bind at 1, getitem. rewrite Hr.
    destruct (a !! (hand_idx * 63 + 2)) as [wz|]; [|done].
    cbn [mbind option_bind]. by apply sub_loop_stored.
  - unfold mret, M_ret, ret, stored. cbn. by rewrite insert_id.
Qed.

(** The run of [normalize_landmarks]: the result is a new array, holding
    [norm_array] of the input's contents; nothing else is written. *)
Lemma normalize_landmarks_run r h a :
  h !! r = Some a →
  normalize_landmarks r h
  = stored (fresh (dom h)) (fresh (dom h)) h (norm_array a).
Proof.
  intros Hr. unfold normalize_landmarks.
  unfold mbind at 1, M_bind at 1, bind at 1, copy, np_array. rewrite Hr.
  set (r' := fresh (dom h)). set (h0 := <[r' := a]> h).
  assert (H0 : h0 !! r' = Some a) by apply lookup_insert_eq.
  change (py_range 0 2 1) with [0; 1]. cbn [for_each].
  unfold mbind at 1, M_bind at 1, bind at 1.
  unfold mbind at 1, M_bind at 1, bind at 1.
  pose proof (norm_hand_stored r' 0 h0 a H0) as E0.
  cbv beta zeta in E0 |- *. rewrite E0. clear E0.
  unfold norm_array, stored.
  destruct (norm_hand 0 a) as [a0|]; [|done]. cbn [mbind option_bind].
  unfold mbind at 1, M_bind at 1, bind at 1.
  pose proof (norm_hand_stored r' 1 (<[r' := a0]> h0) a0) as E1.
  cbv beta zeta in E1 |- *. rewrite E1 by apply lookup_insert_eq. clear E1.
  unfold stored.
  destruct (norm_hand 1 a0) as [a1|]; [|done]. cbn.
  unfold h0. by rewrite !insert_insert_eq.
Qed.

End normalize_refinement.

(** ** Arrays: slices and the subtraction loop *)

Section array_analysis.
Import Store Utils Normalize.

Implicit Types (a : list Qc) (i j k s e : nat) (w : Qc * Qc * Qc).

Lemma Qc_sub_eq_0 (x w : Qc) : (x - w)%Qc = 0%Qc → x = w.
Proof.
  intros Hz. replace x with (x - w + w)%Qc by ring. rewrite Hz. ring.
Qed.

Lemma np_any_false (xs : list Qc) :
  np_any xs = false ↔ Forall (λ x, x = 0%Qc) xs.
Proof.
  unfold np_any. induction xs as [|x xs IH]; cbn.
  - split; [constructor | done].
  - rewrite orb_false_iff, IH, negb_false_iff, bool_decide_eq_true.
    rewrite Forall_cons. done.
Qed.

Lemma np_any_true (xs : list Qc) :
  np_any xs = true ↔ ∃ j x, xs !! j = Some x ∧ x ≠ 0%Qc.
Proof.
  unfold np_any. induction xs as [|y xs IH]; cbn.
  - split; [done | by intros (j & x & Hj & _)].
  - rewrite orb_true_iff, IH, negb_true_iff, bool_decide_eq_false. split.
    + intros [Hy|(j & x & Hj & Hx)]; [by exists 0, y | by exists (S j), x].
    + intros ([|j] & x & Hj & Hx); cbn in Hj; [left | right; eauto].
      congruence.
Qed.

Lemma slice_lookup s e a j :
  slice s e a !! j = if decide (j < e - s) then a !! (s + j) else None.
Proof. unfold slice. by rewrite lookup_take, lookup_drop. Qed.

Lemma slice_length s e a : length (slice s e a) = (e - s) `min` (length a - s).
Proof. unfold slice. by rewrite length_take, length_drop. Qed.

(** Two arrays that agree between [s] and [e] have the same slice. *)
Lemma slice_ext s e a a' :
  (∀ j, s ≤ j < e → a' !! j = a !! j) → slice s e a' = slice s e a.
Proof.
  intros Hag. apply list_eq. intros j. rewrite !slice_lookup.
  case_decide; [|done]. apply Hag. lia.
Qed.

Lemma sub_at_length i x a a' : sub_at i x a = Some a' → length a' = length a.
Proof.
  unfold sub_at. destruct (a !! i); cbn; [|done].
  intros [= <-]. apply length_insert.
Qed.

Lemma sub_triple_length w i a a' :
  sub_triple w i a = Some a' → length a' = length a.
Proof.
  destruct w as [[wx wy] wz]. unfold sub_triple.
  destruct (sub_at i wx a) as [a1|] eqn:E1; cbn; [|done].
  destruct (sub_at (i + 1) wy a1) as [a2|] eqn:E2; cbn; [|done].
  intros E3. apply sub_at_length in E1, E2, E3. congruence.
Qed.

Lemma sub_loop_length idxs w : ∀ a a',
  sub_loop idxs w a = Some a' → length a' = length a.
Proof.
  induction idxs as [|i idxs IH]; intros a a'; cbn.
  - by intros [= <-].
  - destruct (sub_triple w i a) as [a1|] eqn:E1; cbn; [|done].
    intros E. apply IH in E. apply sub_triple_length in E1. congruence.
Qed.

(** A round that reaches past the end of the array raises. *)
Lemma sub_triple_out w i a : length a ≤ i + 2 → sub_triple w i a = None.
Proof.
  intros Hlen. destruct w as [[wx wy] wz]. unfold sub_triple.
  destruct (sub_at i wx a) as [a1|] eqn:E1; cbn; [|done].
  destruct (sub_at (i + 1) wy a1) as [a2|] eqn:E2; cbn; [|done].
  apply sub_at_length in E1, E2. unfold sub_at.
  rewrite (lookup_ge_None_2 a2) by lia. done.
Qed.

Lemma sub_loop_out idxs w i : ∀ a,
  i ∈ idxs → length a ≤ i + 2 → sub_loop idxs w a = None.
Proof.
  induction idxs as [|i' idxs IH]; intros a Hin Hlen; cbn.
  - by apply not_elem_of_nil in Hin.
  - destruct (sub_triple w i' a) as [a1|] eqn:E1; cbn; [|done].
    apply elem_of_cons in Hin as [->|Hin].
    + by rewrite sub_triple_out in E1.
    + apply IH; [done|]. apply sub_triple_length in E1. lia.
Qed.

(** A round inside the array, and the array it leaves. *)
Lemma sub_triple_in w i a :
  i + 2 < length a →
  ∃ a', sub_triple w i a = Some a' ∧
    (∀ c, c < 3 →
       a' !! (i + c) = (λ x, (x - pick c w)%Qc) <$> a !! (i + c)) ∧
    (∀ j, j < i ∨ i + 3 ≤ j → a' !! j = a !! j).
Proof.
  intros Hlen. destruct w as [[wx wy] wz].
  destruct (lookup_lt_is_Some_2 a i) as [x Hx]; [lia|].
  destruct (lookup_lt_is_Some_2 a (i + 1)) as [y Hy]; [lia|].
  destruct (lookup_lt_is_Some_2 a (i + 2)) as [z Hz]; [lia|].
  eexists. split.
  - unfold sub_triple, sub_at. rewrite Hx. cbn.
    rewrite list_lookup_insert_ne, Hy by lia. cbn.
    rewrite !list_lookup_insert_ne, Hz by lia. cbn. done.
  - split.
    + intros c Hc.
      destruct c as [|[|[|c]]]; [| | |lia]; cbn [pick fst snd].
      * rewrite Nat.add_0_r, !list_lookup_insert_ne, Hx by lia.
        apply list_lookup_insert_eq. lia.
      * rewrite list_lookup_insert_ne, Hy by lia.
        apply list_lookup_insert_eq. rewrite length_insert. lia.
      * rewrite Hz. apply list_lookup_insert_eq. rewrite !length_insert. lia.
    + intros j Hj. by rewrite !list_lookup_insert_ne by lia.
Qed.

Lemma triples_S start k :
  triples start (S k) = start :: triples (start + 3) k.
Proof.
  unfold triples. cbn [seq fmap list_fmap]. f_equal; [lia|].
  rewrite <- fmap_S_seq, <- list_fmap_compose.
  apply list_fmap_ext. intros _ t _. cbn. lia.
Qed.

Lemma py_range_triples s : py_range s (s + 63) 3 = triples s 21.
Proof.
  unfold py_range, triples.
  by replace (s + 63 - s + (3 - 1)) with 65 by lia.
Qed.

(** The inner loop over [k] landmarks that lie inside the array. *)
Lemma sub_loop_triples w k : ∀ start a,
  start + 3 * k ≤ length a →
  ∃ a', sub_loop (triples start k) w a = Some a' ∧
    (∀ t c, t < k → c < 3 →
       a' !! (start + 3 * t + c)
       = (λ x, (x - pick c w)%Qc) <$> a !! (start + 3 * t + c)) ∧
    (∀ j, j < start ∨ start + 3 * k ≤ j → a' !! j = a !! j).
Proof.
  induction k as [|k IH]; intros start a Hlen.
  - exists a. split; [done|]. split; [lia | done].
  - rewrite triples_S. cbn [sub_loop].
    destruct (sub_triple_in w start a) as (a1 & E1 & Hin1 & Hout1); [lia|].
    rewrite E1. cbn [mbind option_bind].
    destruct (IH (start + 3) a1) as (a' & E & Hin & Hout).
    { apply sub_triple_length in E1. lia. }
    exists a'. split; [done|]. split.
    + intros t c Ht Hc. destruct t as [|t].
      * replace (start + 3 * 0 + c) with (start + c) by lia.
        rewrite Hout by lia. by apply Hin1.
      * replace (start + 3 * S t + c) with (start + 3 + 3 * t + c) by lia.
        rewrite Hin by lia. f_equal. apply Hout1. lia.
    + intros j Hj. by rewrite Hout, Hout1 by lia.
Qed.

(** A hand whose slice is all zero is skipped. *)
Lemma norm_hand_absent hand a :
  present hand a = false → norm_hand hand a = Some a.
Proof. unfold present, norm_hand. by intros ->. Qed.

(** A hand with data but fewer than 63 slots raises. *)
Lemma norm_hand_short hand a :
  present hand a = true → length a < hand * 63 + 63 →
  norm_hand hand a = None.
Proof.
  unfold present, norm_hand. intros -> Hlen.
  destruct (a !! (hand * 63)); cbn [mbind option_bind]; [|done].
  destruct (a !! (hand * 63 + 1)); cbn [mbind option_bind]; [|done].
  destruct (a !! (hand * 63 + 2)); cbn [mbind option_bind]; [|done].
  rewrite py_range_triples.
  apply sub_loop_out with (i := hand * 63 + 3 * 20); [|lia].
  apply list_elem_of_fmap. exists 20. split; [done|].
  apply elem_of_seq. lia.
Qed.

(** A hand with data and all its 63 slots. *)
Lemma norm_hand_present hand a :
  present hand a = true → hand * 63 + 63 ≤ length a →
  ∃ a', norm_hand hand a = Some a' ∧
    (∀ t c, t < 21 → c < 3 →
       a' !! (hand * 63 + 3 * t + c)
       = (x ← a !! (hand * 63 + 3 * t + c);
          w ← a !! (hand * 63 + c); Some (x - w)%Qc)) ∧
    (∀ j, j < hand * 63 ∨ hand * 63 + 63 ≤ j → a' !! j = a !! j).
Proof.
  unfold present, norm_hand. intros -> Hlen.
  destruct (lookup_lt_is_Some_2 a (hand * 63)) as [wx Hx]; [lia|].
  destruct (lookup_lt_is_Some_2 a (hand * 63 + 1)) as [wy Hy]; [lia|].
  destruct (lookup_lt_is_Some_2 a (hand * 63 + 2)) as [wz Hz]; [lia|].
  rewrite Hx, Hy, Hz. cbn [mbind option_bind]. rewrite py_range_triples.
  destruct (sub_loop_triples (wx, wy, wz) 21 (hand * 63) a)
    as (a' & E & Hin & Hout); [lia|].
  exists a'. split; [done|]. split; [|intros j Hj; apply Hout; lia].
  intros t c Ht Hc. rewrite Hin by done.
  assert (a !! (hand * 63 + c) = Some (pick c (wx, wy, wz))) as ->.
  { destruct c as [|[|[|c]]]; [| | |lia]; cbn [pick fst snd];
      [by rewrite Nat.add_0_r | done | done]. }
  by destruct (a !! (hand * 63 + 3 * t + c)).
Qed.

Lemma norm_hand_length hand a a' :
  norm_hand hand a = Some a' → length a' = length a.
Proof.
  unfold norm_hand. destruct (np_any _); [|by intros [= <-]].
  destruct (a !! (hand * 63)); cbn [mbind option_bind]; [|done].
  destruct (a !! (hand * 63 + 1)); cbn [mbind option_bind]; [|done].
  destruct (a !! (hand * 63 + 2)); cbn [mbind option_bind]; [|done].
  apply sub_loop_length.
Qed.

(** A round of the outer loop leaves the other hand's slots alone. *)
Lemma norm_hand_outside hand a a' j :
  norm_hand hand a = Some a' →
  j < hand * 63 ∨ hand * 63 + 63 ≤ j → a' !! j = a !! j.
Proof.
  intros E Hj. destruct (present hand a) eqn:Hp.
  - destruct (decide (hand * 63 + 63 ≤ length a)) as [Hlen|Hlen].
    + destruct (norm_hand_present hand a Hp Hlen) as (a2 & E2 & _ & Hout).
      rewrite E in E2. injection E2 as <-. by apply Hout.
    + rewrite norm_hand_short in E by (done || lia). done.
  - rewrite norm_hand_absent in E by done. by injection E as <-.
Qed.

Lemma norm_hand_None hand a :
  norm_hand hand a = None ↔
  present hand a = true ∧ length a < hand * 63 + 63.
Proof.
  split; [|intros [Hp Hlen]; by apply norm_hand_short].
  intros E. destruct (present hand a) eqn:Hp.
  - split; [done|]. apply Nat.lt_nge. intros Hlen.
    destruct (norm_hand_present hand a Hp Hlen) as (a' & E' & _).
    congruence.
  - rewrite norm_hand_absent in E by done. done.
Qed.

Lemma present_after hand hand' a a' :
  norm_hand hand' a = Some a' → hand ≠ hand' →
  present hand a' = present hand a.
Proof.
  intros E Hne. unfold present. f_equal. apply slice_ext. intros j Hj.
  apply (norm_hand_outside _ _ _ _ E). lia.
Qed.

Lemma norm_array_length a a' :
  norm_array a = Some a' → length a' = length a.
Proof.
  unfold norm_array. destruct (norm_hand 0 a) as [a0|] eqn:E0; cbn; [|done].
  intros E1. apply norm_hand_length in E0, E1. congruence.
Qed.

(** When the normalisation raises. *)
Lemma norm_array_None a :
  norm_array a = None ↔
  ∃ hand, hand < 2 ∧ present hand a = true ∧ length a < hand * 63 + 63.
Proof.
  unfold norm_array. split.
  - destruct (norm_hand 0 a) as [a0|] eqn:E0; cbn.
    + intros [Hp Hlen]%norm_hand_None. exists 1.
      rewrite (present_after 1 0 a a0) in Hp by done.
      apply norm_hand_length in E0. split; [lia|]. split; [done | lia].
    + intros _. apply norm_hand_None in E0. exists 0. split; [lia | done].
  - intros (hand & Hh & Hp & Hlen).
    destruct (norm_hand 0 a) as [a0|] eqn:E0; cbn; [|done].
    destruct hand as [|[|hand]]; [| |lia].
    + rewrite norm_hand_short in E0; done.
    + apply norm_hand_short.
      * by rewrite (present_after 1 0 a a0).
      * apply norm_hand_length in E0. lia.
Qed.

(** What a successful normalisation leaves in the slots of each hand. *)
Lemma norm_array_hand a a' hand :
  norm_array a = Some a' → hand < 2 →
  (present hand a = true →
     ∀ t c, t < 21 → c < 3 →
       a' !! (hand * 63 + 3 * t + c)
       = (x ← a !! (hand * 63 + 3 * t + c);
          w ← a !! (hand * 63 + c); Some (x - w)%Qc)) ∧
  (present hand a = false →
     ∀ j, hand * 63 ≤ j < hand * 63 + 63 → a' !! j = a !! j).
Proof.
  unfold norm_array.
  destruct (norm_hand 0 a) as [a0|] eqn:E0; cbn [mbind option_bind]; [|done].
  intros E1 Hh. destruct hand as [|[|hand]]; [| |lia].
  - split.
    + intros Hp t c Ht Hc.
      rewrite (norm_hand_outside _ _ _ _ E1) by lia.
      destruct (decide (0 * 63 + 63 ≤ length a)) as [Hlen|Hlen].
      * destruct (norm_hand_present 0 a Hp Hlen) as (a2 & E2 & Hin & _).
        rewrite E0 in E2. injection E2 as <-. by apply Hin.
      * rewrite norm_hand_short in E0 by (done || lia). done.
    + intros Hp j Hj. rewrite (norm_hand_outside _ _ _ _ E1) by lia.
      rewrite norm_hand_absent in E0 by done. by injection E0 as <-.
  - rewrite <- (present_after 1 0 a a0) by done. split.
    + intros Hp t c Ht Hc.
      destruct (decide (1 * 63 + 63 ≤ length a0)) as [Hlen|Hlen].
      * destruct (norm_hand_present 1 a0 Hp Hlen) as (a2 & E2 & Hin & _).
        rewrite E1 in E2. injection E2 as <-. rewrite Hin by done.
        by rewrite !(norm_hand_outside _ _ _ _ E0) by lia.
      * rewrite norm_hand_short in E1 by (done || lia). done.
    + intros Hp j Hj. rewrite norm_hand_absent in E1 by done.
      injection E1 as <-. apply (norm_hand_outside _ _ _ _ E0). lia.
Qed.

(** Slots past the second hand are never touched. *)
Lemma norm_array_beyond a a' j :
  norm_array a = Some a' → 126 ≤ j → a' !! j = a !! j.
Proof.
  unfold norm_array.
  destruct (norm_hand 0 a) as [a0|] eqn:E0; cbn [mbind option_bind]; [|done].
  intros E1 Hj. rewrite (norm_hand_outside _ _ _ _ E1) by lia.
  apply (norm_hand_outside _ _ _ _ E0). lia.
Qed.

(** A vector with both hands' slots is always normalised. *)
Lemma norm_array_total a : 126 ≤ length a → is_Some (norm_array a).
Proof.
  intros Hlen. destruct (norm_array a) eqn:E; [done|].
  apply norm_array_None in E as (hand & Hh & _ & Hs). lia.
Qed.

(** Every slot of a hand is coordinate [c] of landmark [t]. *)
Lemma slot_decompose s j :
  s ≤ j < s + 63 → ∃ t c, t < 21 ∧ c < 3 ∧ j = s + 3 * t + c.
Proof.
  intros Hj. exists ((j - s) / 3), ((j - s) `mod` 3).
  pose proof (Nat.div_mod_eq (j - s) 3).
  pose proof (Nat.mod_upper_bound (j - s) 3).
  lia.
Qed.

Lemma present_false hand a :
  hand * 63 + 63 ≤ length a →
  present hand a = false ↔
  ∀ t c, t < 21 → c < 3 → a !! (hand * 63 + 3 * t + c) = Some 0%Qc.
Proof.
  intros Hlen. unfold present. rewrite np_any_false, Forall_lookup. split.
  - intros Hz t c Ht Hc.
    destruct (lookup_lt_is_Some_2 a (hand * 63 + 3 * t + c)) as [x Hx];
      [lia|].
    rewrite Hx. f_equal. apply (Hz (3 * t + c)).
    rewrite slice_lookup, decide_True by lia. by rewrite Nat.add_assoc.
  - intros Hz j x. rewrite slice_lookup. case_decide; [|done].
    destruct (slot_decompose (hand * 63) (hand * 63 + j))
      as (t & c & Ht & Hc & ->); [lia|].
    rewrite Hz by done. congruence.
Qed.

Lemma norm_array_complete a a' hand :
  norm_array a = Some a' → hand < 2 → present hand a = true →
  hand * 63 + 63 ≤ length a.
Proof.
  intros E Hh Hp. apply Nat.le_ngt. intros Hlen.
  assert (norm_array a = None) by (apply norm_array_None; eauto).
  congruence.
Qed.

(** A hand that is measured from its wrist already is left as it is. *)
Lemma norm_hand_fixed hand a :
  (present hand a = true →
     hand * 63 + 63 ≤ length a ∧
     ∀ c, c < 3 → a !! (hand * 63 + c) = Some 0%Qc) →
  norm_hand hand a = Some a.
Proof.
  intros Hw. destruct (present hand a) eqn:Hp;
    [|by apply norm_hand_absent].
  destruct Hw as [Hlen Hw]; [done|].
  destruct (norm_hand_present hand a Hp Hlen) as (a' & E & Hin & Hout).
  rewrite E. f_equal. apply list_eq. intros j.
  destruct (decide (hand * 63 ≤ j < hand * 63 + 63)) as [Hj|Hj];
    [|apply Hout; lia].
  destruct (slot_decompose _ _ Hj) as (t & c & Ht & Hc & ->).
  rewrite Hin, Hw by done.
  destruct (a !! (hand * 63 + 3 * t + c)) as [x|]; [cbn | done].
  f_equal. ring.
Qed.

(** After one pass, the wrist of a hand with data is at the origin. *)
Lemma norm_array_wrist a a' hand c :
  norm_array a = Some a' → hand < 2 → present hand a = true → c < 3 →
  a' !! (hand * 63 + c) = Some 0%Qc.
Proof.
  intros E Hh Hp Hc.
  pose proof (norm_array_complete _ _ _ E Hh Hp) as Hlen.
  destruct (norm_array_hand _ _ _ E Hh) as [Hin _].
  specialize (Hin Hp 0 c). rewrite Nat.mul_0_r, Nat.add_0_r in Hin.
  rewrite Hin by lia.
  destruct (lookup_lt_is_Some_2 a (hand * 63 + c)) as [x ->]; [lia|].
  cbn. f_equal. ring.
Qed.

(** A hand without data has none afterwards either. *)
Lemma norm_array_absent a a' hand :
  norm_array a = Some a' → hand < 2 → present hand a = false →
  present hand a' = false.
Proof.
  intros E Hh Hp. rewrite <- Hp. unfold present. f_equal.
  apply slice_ext. intros j Hj.
  destruct (norm_array_hand _ _ _ E Hh) as [_ Hout]. by apply Hout.
Qed.

Lemma norm_array_idem a a' : norm_array a = Some a' → norm_array a' = Some a'.
Proof.
  intros E.
  assert (∀ hand, hand < 2 → norm_hand hand a' = Some a') as Hfix.
  { intros hand Hh. apply norm_hand_fixed. intros Hp'.
    destruct (present hand a) eqn:Hp.
    - split.
      + rewrite (norm_array_length _ _ E).
        by apply (norm_array_complete _ _ _ E).
      + intros c Hc. by apply (norm_array_wrist a).
    - rewrite (norm_array_absent _ _ _ E Hh Hp) in Hp'. done. }
  unfold norm_array. rewrite (Hfix 0) by lia. cbn [mbind option_bind].
  apply Hfix. lia.
Qed.

(** When a hand comes out all zero: its landmarks were all at the wrist. *)
Lemma norm_array_zero a a' hand :
  norm_array a = Some a' → hand < 2 → hand * 63 + 63 ≤ length a →
  present hand a' = false ↔
  ∀ t c, t < 21 → c < 3 →
    a !! (hand * 63 + 3 * t + c) = a !! (hand * 63 + c).
Proof.
  intros E Hh Hlen.
  rewrite present_false by (by rewrite (norm_array_length _ _ E)).
  destruct (norm_array_hand _ _ _ E Hh) as [Hin Hout].
  destruct (present hand a) eqn:Hp.
  - specialize (Hin eq_refl).
    split; intros Hz t c Ht Hc; specialize (Hz t c Ht Hc);
      rewrite Hin in * by done;
      destruct (lookup_lt_is_Some_2 a (hand * 63 + 3 * t + c)) as [x Hx];
      try lia;
      destruct (lookup_lt_is_Some_2 a (hand * 63 + c)) as [w Hw];
      try lia;
      rewrite Hx, Hw in *; cbn in *; f_equal.
    + apply Qc_sub_eq_0. congruence.
    + assert (x = w) as -> by congruence. ring.
  - pose proof Hp as Hz0. rewrite present_false in Hz0 by done.
    split.
    + intros _ t c Ht Hc. rewrite Hz0 by done.
      specialize (Hz0 0 c). rewrite Nat.mul_0_r, Nat.add_0_r in Hz0.
      rewrite Hz0 by lia. done.
    + intros _ t c Ht Hc. rewrite Hout by lia. by apply Hz0.
Qed.

End array_analysis.

(** ** The landmark normaliser *)

Section normalizer.
Import Store Utils Normalize.

Implicit Types (h : heap) (a : list Qc).

Lemma fresh_unused h : h !! fresh (dom h) = None.
Proof. apply not_elem_of_dom, is_fresh. Qed.

Lemma normalize_landmarks_Some landmarks h a a' :
  h !! landmarks = Some a → norm_array a = Some a' →
  normalize_landmarks landmarks h
  = Some (fresh (dom h), <[fresh (dom h) := a']> h).
Proof.
  intros Hr E. rewrite (normalize_landmarks_run _ _ _ Hr), E. done.
Qed.

Lemma normalize_landmarks_inv landmarks h a normalized h' :
  h !! landmarks = Some a →
  normalize_landmarks landmarks h = Some (normalized, h') →
  ∃ a', norm_array a = Some a' ∧ h !! normalized = None ∧
        h' = <[normalized := a']> h.
Proof.
  intros Hr. rewrite (normalize_landmarks_run _ _ _ Hr). unfold stored.
  destruct (norm_array a) as [a'|]; cbn; [|done].
  intros [= <- <-]. exists a'. split; [done|]. split; [|done].
  apply fresh_unused.
Qed.

Lemma norm_array_wrist_relative a a' :
  norm_array a = Some a' → wrist_relative a a'.
Proof.
  intros E. split; [by apply norm_array_length|]. split.
  - intros hand Hh.
    destruct (norm_array_hand _ _ _ E Hh) as [Hin Hout].
    split; [done|]. intros Hp. apply slice_ext. by apply Hout.
  - intros j Hj. by apply (norm_array_beyond a).
Qed.

(** C3.  For every vector of 126 elements, [normalize_landmarks]
    succeeds; it returns a new array and leaves its argument as it was;
    in the result every hand slice with a non-zero element has the
    (x, y, z) of its first landmark subtracted from each of its 21
    landmarks, so that its wrist is exactly (0, 0, 0), and every all-zero
    slice is unchanged. *)
Theorem normalize_landmarks_wrist_relative landmarks h a :
  h !! landmarks = Some a → length a = 126 →
  ∃ normalized a',
    normalize_landmarks landmarks h = Some (normalized, <[normalized := a']> h)
    ∧ h !! normalized = None
    ∧ <[normalized := a']> h !! landmarks = Some a
    ∧ wrist_relative a a'
    ∧ ∀ hand c, hand < 2 → c < 3 → present hand a = true →
        a' !! (hand * 63 + c) = Some 0%Qc.
Proof.
  intros Hr Hlen.
  destruct (norm_array_total a) as [a' E]; [lia|].
  exists (fresh (dom h)), a'.
  split; [by apply (normalize_landmarks_Some _ _ a)|].
  split; [apply fresh_unused|]. split.
  { rewrite lookup_insert_ne; [done|]. intros Heq.
    pose proof (fresh_unused h) as Hf. rewrite Heq in Hf. congruence. }
  split; [by apply norm_array_wrist_relative|].
  intros hand c Hh Hc Hp. by apply (norm_array_wrist a).
Qed.

Lemma normalize_landmarks_wrist_relative_witness :
  one_array one_of_two !! 1%positive = Some one_of_two
  ∧ length one_of_two = 126
  ∧ ∃ normalized a',
      normalize_landmarks 1%positive (one_array one_of_two)
      = Some (normalized, <[normalized := a']> (one_array one_of_two))
      ∧ a' !! 0 = Some 0%Qc.
Proof.
  split; [reflexivity|]. split; [reflexivity|].
  destruct (normalize_landmarks_wrist_relative
              1%positive (one_array one_of_two) one_of_two)
    as (normalized & a' & E & _ & _ & _ & Hw); [reflexivity | reflexivity |].
  exists normalized, a'. split; [exact E|].
  apply (Hw 0 0); [lia | lia | vm_compute; reflexivity].
Defined.

(** C10.  Normalising twice gives what normalising once gives: for every
    vector of 126 elements, [normalize_landmarks] applied to its own
    result succeeds and returns an array with the same contents. *)
Theorem normalize_landmarks_idempotent landmarks h a :
  h !! landmarks = Some a → length a = 126 →
  ∃ once h1 a' twice h2,
    normalize_landmarks landmarks h = Some (once, h1)
    ∧ h1 !! once = Some a'
    ∧ normalize_landmarks once h1 = Some (twice, h2)
    ∧ h2 !! twice = Some a'.
Proof.
  intros Hr Hlen.
  destruct (norm_array_total a) as [a' E]; [lia|].
  pose proof (norm_array_idem _ _ E) as E'.
  set (h1 := <[fresh (dom h) := a']> h).
  assert (h1 !! fresh (dom h) = Some a') as H1 by apply lookup_insert_eq.
  exists (fresh (dom h)), h1, a', (fresh (dom h1)),
    (<[fresh (dom h1) := a']> h1).
  split; [by apply (normalize_landmarks_Some _ _ a)|].
  split; [done|].
  split; [by apply (normalize_landmarks_Some _ _ a')|].
  apply lookup_insert_eq.
Qed.

Lemma normalize_landmarks_idempotent_witness :
  one_array one_of_two !! 1%positive = Some one_of_two
  ∧ length one_of_two = 126
  ∧ ∃ once h1 twice h2,
      normalize_landmarks 1%positive (one_array one_of_two) = Some (once, h1)
      ∧ normalize_landmarks once h1 = Some (twice, h2)
      ∧ h2 !! twice = h1 !! once.
Proof.
  split; [reflexivity|]. split; [reflexivity|].
  destruct (normalize_landmarks_idempotent
              1%positive (one_array one_of_two) one_of_two)
    as (once & h1 & a' & twice & h2 & E1 & H1 & E2 & H2);
    [reflexivity | reflexivity |].
  exists once, h1, twice, h2. split; [exact E1|]. split; [exact E2|].
  rewrite H1, H2. reflexivity.
Defined.

(** C8, refuted as stated.  In [coincident_hand] the first hand has
    data (all its landmarks are at (0.5, 0.5, 0.5)), yet its slice is all
    zero after normalisation. *)
Lemma coincident_hand_comes_out_zero :
  length coincident_hand = 126
  ∧ present 0 coincident_hand = true
  ∧ (∃ normalized,
       normalize_landmarks 1%positive (one_array coincident_hand)
       = Some (normalized,
               <[normalized := replicate 126 0%Qc]>
                 (one_array coincident_hand)))
  ∧ present 0 (replicate 126 0%Qc) = false.
Proof.
  split; [reflexivity|]. split; [vm_compute; reflexivity|].
  split; [|vm_compute; reflexivity].
  eexists. apply (normalize_landmarks_Some _ _ coincident_hand);
    [reflexivity|].
  apply (bool_decide_unpack _). vm_compute. exact I.
Qed.

(** C8, as the code has it.  For every vector of 126 elements and each
    of its two hands, the hand's slice is all zero after normalisation
    exactly when every landmark of that hand had the coordinates of the
    hand's wrist in the input; this is the case of a hand without data,
    whose slice stays all zero, and of no other hand but one whose 21
    landmarks coincide. *)
Theorem normalized_zero_iff_coincident landmarks h a :
  h !! landmarks = Some a → length a = 126 →
  ∃ normalized h' a',
    normalize_landmarks landmarks h = Some (normalized, h')
    ∧ h' !! normalized = Some a'
    ∧ ∀ hand, hand < 2 →
        (present hand a' = false ↔
         ∀ t c, t < 21 → c < 3 →
           a !! (hand * 63 + 3 * t + c) = a !! (hand * 63 + c))
        ∧ (present hand a = false → present hand a' = false).
Proof.
  intros Hr Hlen.
  destruct (norm_array_total a) as [a' E]; [lia|].
  exists (fresh (dom h)), (<[fresh (dom h) := a']> h), a'.
  split; [by apply (normalize_landmarks_Some _ _ a)|].
  split; [apply lookup_insert_eq|].
  intros hand Hh. split.
  - apply norm_array_zero; [done | done | lia].
  - by apply norm_array_absent.
Qed.

Lemma normalized_zero_iff_coincident_witness :
  one_array coincident_hand !! 1%positive = Some coincident_hand
  ∧ length coincident_hand = 126
  ∧ ∃ normalized h' a',
      normalize_landmarks 1%positive (one_array coincident_hand)
      = Some (normalized, h')
      ∧ h' !! normalized = Some a'
      ∧ present 0 a' = false ∧ present 1 a' = false.
Proof.
  split; [reflexivity|]. split; [reflexivity|].
  destruct (normalized_zero_iff_coincident
              1%positive (one_array coincident_hand) coincident_hand)
    as (normalized & h' & a' & E & H' & Hz); [reflexivity | reflexivity |].
  exists normalized, h', a'. split; [exact E|]. split; [exact H'|].
  split.
  - destruct (Hz 0) as [[_ H0] _]; [lia|]. apply H0. intros t c Ht Hc.
    unfold coincident_hand.
    rewrite !lookup_app_l by (rewrite length_replicate; lia).
    rewrite !lookup_replicate_2 by lia. reflexivity.
  - destruct (Hz 1) as [_ H1]; [lia|]. apply H1. vm_compute. reflexivity.
Defined.

(** C9, refuted as stated.  [single_hand] has 63 elements, not 126;
    [normalize_landmarks] does not reject it, and returns the 63
    elements normalised. *)
Lemma single_hand_vector_accepted :
  length single_hand = 63
  ∧ ∃ normalized,
      normalize_landmarks 1%positive (one_array single_hand)
      = Some (normalized,
              <[normalized := single_hand_normalized]> (one_array single_hand)).
Proof.
  split; [reflexivity|].
  eexists. apply (normalize_landmarks_Some _ _ single_hand); [reflexivity|].
  apply (bool_decide_unpack _). vm_compute. exact I.
Qed.

Lemma collect_length multi_hand_landmarks :
  126 ≤ length (collect multi_hand_landmarks).
Proof. unfold collect. rewrite length_app, length_replicate. lia. Qed.

(** Whatever the detector reported, [extract_landmarks] normalises 126
    elements and does not raise. *)
Lemma extract_landmarks_padded multi_hand_landmarks h :
  multi_hand_landmarks ≠ [] →
  ∃ normalized h' a',
    extract_landmarks multi_hand_landmarks h = Some (Some normalized, h')
    ∧ h' !! normalized = Some a' ∧ length a' = 126.
Proof.
  intros Hm. unfold extract_landmarks.
  rewrite bool_decide_eq_false_2 by done.
  set (xs := take 126 (collect multi_hand_landmarks)).
  assert (length xs = 126) as Hxs.
  { unfold xs. rewrite length_take.
    pose proof (collect_length multi_hand_landmarks). lia. }
  destruct (norm_array_total xs) as [a' E]; [lia|].
  set (h0 := <[fresh (dom h) := xs]> h).
  exists (fresh (dom h0)), (<[fresh (dom h0) := a']> h0), a'.
  split; [|split].
  - unfold mbind at 1, M_bind at 1, bind at 1, np_array. fold h0.
    unfold mbind at 1, M_bind at 1, bind at 1.
    rewrite (normalize_landmarks_Some _ h0 xs a');
      [done | apply lookup_insert_eq | done].
  - apply lookup_insert_eq.
  - by rewrite (norm_array_length _ _ E).
Qed.

(** C9, as the code has it.  [normalize_landmarks] does not look at the
    length of its argument.  It raises exactly when one of the two hand
    slices [0:63] and [63:126] of the vector has a non-zero element and
    fewer than 63 elements; in every other case, whatever the length, it
    returns a vector of the length of its argument, with each hand that
    has data measured from its wrist and the rest unchanged.  On its
    side, [extract_landmarks] fills what it collected with zeros and cuts
    it, so that what it normalises has 126 elements. *)
Theorem normalize_landmarks_no_length_check landmarks h a :
  h !! landmarks = Some a →
  (normalize_landmarks landmarks h = None ↔
     ∃ hand, hand < 2 ∧ present hand a = true ∧
             length a < hand * 63 + 63)
  ∧ (∀ normalized h',
       normalize_landmarks landmarks h = Some (normalized, h') →
       ∃ a', h' !! normalized = Some a' ∧ wrist_relative a a')
  ∧ (∀ multi_hand_landmarks h0,
       multi_hand_landmarks ≠ [] →
       ∃ normalized h' a',
         extract_landmarks multi_hand_landmarks h0 = Some (Some normalized, h')
         ∧ h' !! normalized = Some a' ∧ length a' = 126).
Proof.
  intros Hr. split; [|split].
  - rewrite <- norm_array_None, (normalize_landmarks_run _ _ _ Hr).
    unfold stored. by destruct (norm_array a).
  - intros normalized h' E.
    destruct (normalize_landmarks_inv _ _ _ _ _ Hr E) as (a' & E' & _ & ->).
    exists a'. split; [apply lookup_insert_eq|].
    by apply norm_array_wrist_relative.
  - intros m h0 Hm. by apply extract_landmarks_padded.
Qed.

Lemma normalize_landmarks_no_length_check_witness :
  one_array single_hand !! 1%positive = Some single_hand
  ∧ normalize_landmarks 1%positive (one_array single_hand) ≠ None.
Proof.
  split; [reflexivity|].
  destruct (normalize_landmarks_no_length_check
              1%positive (one_array single_hand) single_hand)
    as [Hnone _]; [reflexivity|].
  intros E. apply Hnone in E as (hand & Hh & Hp & Hlen).
  destruct hand as [|[|hand]]; [| |lia].
  - vm_compute in Hlen. lia.
  - vm_compute in Hp. discriminate Hp.
Defined.

End normalizer.

(** ** The stability buffer *)

Section stability.
Import Pipeline.

Implicit Types (N : Z) (buf : list string) (sign : string).

Lemma push_room N buf sign :
  (Z.of_nat (length buf) < N)%Z → push N buf sign = buf ++ [sign].
Proof.
  intros Hlen. unfold push. rewrite bool_decide_eq_false_2; [done|].
  rewrite length_app. cbn. lia.
Qed.

Lemma push_full N buf sign :
  (N ≤ Z.of_nat (length buf))%Z → push N buf sign = drop 1 (buf ++ [sign]).
Proof.
  intros Hlen. unfold push. rewrite bool_decide_eq_true_2; [done|].
  rewrite length_app. cbn. lia.
Qed.

Lemma push_length N buf sign :
  (0 ≤ N)%Z → (Z.of_nat (length buf) ≤ N)%Z →
  (Z.of_nat (length (push N buf sign)) ≤ N)%Z.
Proof.
  intros HN Hlen. unfold push. case_bool_decide as Hover.
  - rewrite length_drop. rewrite length_app in *. cbn in *. lia.
  - lia.
Qed.

Lemma stable_spec N buf sign :
  stable N buf sign = true ↔
  Z.of_nat (length buf) = N ∧ Forall (λ s, s = sign) buf.
Proof.
  unfold stable. by rewrite andb_true_iff, !bool_decide_eq_true.
Qed.

Lemma stable_short N buf sign :
  (Z.of_nat (length buf) < N)%Z → stable N buf sign = false.
Proof.
  intros Hlen. apply not_true_is_false. rewrite stable_spec. lia.
Qed.

Lemma replicate_snoc {A} (n : nat) (x : A) :
  replicate n x ++ [x] = replicate (S n) x.
Proof. induction n as [|n IH]; cbn; [done | by rewrite IH]. Qed.

(** While the buffer is filling with one sign, the tracker says no. *)
Lemma observe_all_filling N sign m : ∀ k,
  (Z.of_nat (k + m) < N)%Z →
  observe_all N (replicate k sign) (replicate m sign)
  = (replicate (k + m) sign, replicate m false).
Proof.
  induction m as [|m IH]; intros k Hlen; cbn [replicate observe_all].
  - by rewrite Nat.add_0_r.
  - unfold observe.
    rewrite push_room by (rewrite length_replicate; lia).
    rewrite replicate_snoc.
    rewrite stable_short by (rewrite length_replicate; lia).
    rewrite (IH (S k)) by lia.
    by replace (S k + m) with (k + S m) by lia.
Qed.

Lemma observe_all_app N signs1 : ∀ buf signs2,
  observe_all N buf (signs1 ++ signs2)
  = (fst (observe_all N (fst (observe_all N buf signs1)) signs2),
     snd (observe_all N buf signs1)
     ++ snd (observe_all N (fst (observe_all N buf signs1)) signs2)).
Proof.
  induction signs1 as [|sign signs1 IH]; intros buf signs2;
    cbn [app observe_all fst snd].
  - by destruct (observe_all N buf signs2).
  - destruct (observe N buf sign) as [buf1 b]. rewrite IH.
    destruct (observe_all N buf1 signs1) as [buf2 bs1]. cbn [fst snd].
    by destruct (observe_all N buf2 signs2).
Qed.

(** C1.  For every capacity N >= 1: observing a confident label appends
    it to the buffer, without its oldest entry when the buffer had N
    entries already, and says "stable" exactly when the buffer then has
    length N and holds nothing but the label just appended; and the same
    label fed N times to an empty buffer gets "stable" on the Nth
    observation and on none before. *)
Theorem observe_stability N :
  (1 ≤ N)%Z →
  (∀ buf sign,
     fst (observe N buf sign)
     = (if decide (Z.of_nat (length buf) < N)%Z then buf ++ [sign]
        else drop 1 buf ++ [sign])
     ∧ (snd (observe N buf sign) = true ↔
        Z.of_nat (length (fst (observe N buf sign))) = N
        ∧ Forall (λ s, s = sign) (fst (observe N buf sign))))
  ∧ (∀ sign,
       snd (observe_all N [] (replicate (Z.to_nat N) sign))
       = replicate (Z.to_nat N - 1) false ++ [true]).
Proof.
  intros HN. split.
  - intros buf sign. unfold observe. cbn [fst snd]. split.
    + case_decide as Hlen; [by apply push_room|].
      rewrite push_full by lia.
      destruct buf as [|s buf]; [cbn in Hlen; lia | done].
    + apply stable_spec.
  - intros sign.
    replace (Z.to_nat N) with (S (Z.to_nat N - 1)) at 1 by lia.
    rewrite <- replicate_snoc, observe_all_app.
    pose proof (observe_all_filling N sign (Z.to_nat N - 1) 0) as Hfill.
    change (replicate 0 sign) with (@nil string) in Hfill.
    rewrite Hfill by lia. clear Hfill.
    cbn [fst snd observe_all Nat.add]. f_equal.
    unfold observe.
    rewrite push_room by (rewrite length_replicate; lia).
    rewrite replicate_snoc. cbn [fst snd]. f_equal.
    apply stable_spec. split.
    + rewrite length_replicate. lia.
    + apply Forall_replicate. done.
Qed.

Lemma observe_stability_witness :
  (1 ≤ 3)%Z
  ∧ snd (observe_all 3 [] ["Hello"; "Hello"; "Hello"]) = [false; false; true].
Proof.
  split; [lia|].
  destruct (observe_stability 3) as [_ Hrun]; [lia|].
  exact (Hrun "Hello").
Defined.

End stability.

(** ** The announcement gate and the frame loop *)

Section frame_loop.
Import Pipeline.

Implicit Types (cfg : config) (st : state) (fr : frame) (ann : announcement).

(** C2.  For every stable label, time [now] and announcement state, the
    gate says yes exactly when the label differs from the last announced
    one, or is the last announced one and [now - last_time] is strictly
    more than the cooldown; when it says yes the state becomes
    (label, now), and when it says no the state is unchanged. *)
Theorem should_announce_contract
    (cooldown : Qc) (label : string) (now : Qc) ann :
  (fst (should_announce cooldown label now ann) = true ↔
     Some label ≠ last_announced_sign ann
     ∨ (Some label = last_announced_sign ann
        ∧ (cooldown < now - last_announcement_time ann)%Qc))
  ∧ snd (should_announce cooldown label now ann)
    = (if fst (should_announce cooldown label now ann)
       then Announcement (Some label) now
       else ann).
Proof.
  unfold should_announce.
  destruct (bool_decide (Some label ≠ last_announced_sign ann)) eqn:Hd;
    [apply bool_decide_eq_true in Hd | apply bool_decide_eq_false in Hd];
    cbn [orb].
  - split; [|done]. cbn. split; [by left | done].
  - apply dec_stable in Hd.
    case_bool_decide as Hc; cbn; (split; [|done]).
    + split; [by right | done].
    + split; [done|]. intros [Hne|[_ Hlt]]; [congruence | done].
Qed.

Lemma recognise_length cfg st fr :
  (0 ≤ stability_frames cfg)%Z →
  (Z.of_nat (length (stability_buffer st)) ≤ stability_frames cfg)%Z →
  (Z.of_nat (length (stability_buffer (fst (recognise cfg st fr))))
   ≤ stability_frames cfg)%Z.
Proof.
  intros HN Hlen. unfold recognise, observe.
  pose proof (λ sign, push_length _ _ sign HN Hlen) as Hpush.
  destruct (prediction fr) as [[sign conf]|]; [|cbn; lia].
  case_bool_decide; [|cbn; lia].
  destruct (stable _ _ _); [|by cbn].
  destruct (should_announce _ _ _ _) as [[] ann]; cbn; [lia | done].
Qed.

Lemma step_length cfg st fr :
  (0 ≤ stability_frames cfg)%Z →
  (Z.of_nat (length (stability_buffer st)) ≤ stability_frames cfg)%Z →
  (Z.of_nat (length (stability_buffer (fst (step cfg st fr))))
   ≤ stability_frames cfg)%Z.
Proof.
  intros HN Hlen. unfold step.
  pose proof (recognise_length cfg st fr HN Hlen) as Hrec.
  destruct (recognise cfg st fr) as [st1 out]. unfold handle_key.
  destruct (reset_key fr); cbn in *; lia.
Qed.

Lemma run_length cfg frames : ∀ st,
  (0 ≤ stability_frames cfg)%Z →
  (Z.of_nat (length (stability_buffer st)) ≤ stability_frames cfg)%Z →
  (Z.of_nat (length (stability_buffer (fst (run cfg st frames))))
   ≤ stability_frames cfg)%Z.
Proof.
  induction frames as [|fr frames IH]; intros st HN Hlen; cbn [run].
  - done.
  - pose proof (step_length cfg st fr HN Hlen) as Hstep.
    destruct (step cfg st fr) as [st1 out].
    specialize (IH st1 HN Hstep).
    by destruct (run cfg st1 frames).
Qed.

(** C7.  In every state that the loop reaches from an empty buffer, over
    any stream of frames, the buffer holds at most [stability_frames]
    labels; and an append that takes the length past [stability_frames]
    removes the oldest label and nothing else, the others keeping their
    order with the new label last. *)
Theorem stability_buffer_bounded cfg st frames :
  (0 ≤ stability_frames cfg)%Z → stability_buffer st = [] →
  (Z.of_nat (length (stability_buffer (fst (run cfg st frames))))
   ≤ stability_frames cfg)%Z
  ∧ ∀ buf sign,
      if decide (stability_frames cfg < Z.of_nat (length (buf ++ [sign])))%Z
      then ∃ oldest,
             buf ++ [sign] = oldest :: push (stability_frames cfg) buf sign
      else push (stability_frames cfg) buf sign = buf ++ [sign].
Proof.
  intros HN Hempty. split.
  - apply run_length; [done|]. rewrite Hempty. cbn. lia.
  - intros buf sign. unfold push. case_decide as Hover.
    + rewrite bool_decide_eq_true_2 by done.
      destruct buf as [|oldest buf]; cbn; eauto.
    + by rewrite bool_decide_eq_false_2.
Qed.

Lemma stability_buffer_bounded_witness :
  (0 ≤ stability_frames scenario_config)%Z
  ∧ stability_buffer initial = []
  ∧ (Z.of_nat
       (length
          (stability_buffer
             (fst (run scenario_config initial (first_run ++ second_run)))))
     ≤ 3)%Z.
Proof.
  split; [vm_compute; discriminate|]. split; [reflexivity|].
  apply (stability_buffer_bounded scenario_config initial
           (first_run ++ second_run));
    [vm_compute; discriminate | reflexivity].
Defined.

(** C4.  A frame without hands, or whose top confidence is strictly below
    the threshold, leaves the buffer empty whatever it held, and announces
    nothing. *)
Theorem disqualified_frame_clears cfg st fr :
  (prediction fr = None
   ∨ ∃ sign confidence,
       prediction fr = Some (sign, confidence)
       ∧ (confidence < confidence_threshold cfg)%Qc) →
  stability_buffer (fst (step cfg st fr)) = []
  ∧ snd (step cfg st fr) = None.
Proof.
  intros Hbad. unfold step.
  assert (recognise cfg st fr = (State [] (announced st), None)) as ->.
  { unfold recognise.
    destruct Hbad as [->|(sign & confidence & -> & Hlow)]; [done|].
    rewrite bool_decide_eq_false_2; [done|].
    by apply Qclt_not_le. }
  unfold handle_key. by destruct (reset_key fr).
Qed.

Lemma disqualified_frame_clears_witness :
  (Q2Qc (65 # 100) < confidence_threshold scenario_config)%Qc
  ∧ stability_buffer
      (fst (step scenario_config two_hellos (unsure_hello (Q2Qc (2 # 10)))))
    = []
  ∧ snd (step scenario_config two_hellos (unsure_hello (Q2Qc (2 # 10))))
    = None.
Proof.
  assert (Hlow : (Q2Qc (65 # 100) < confidence_threshold scenario_config)%Qc)
    by (vm_compute; reflexivity).
  split; [exact Hlow|].
  apply (disqualified_frame_clears scenario_config two_hellos
           (unsure_hello (Q2Qc (2 # 10)))).
  right. exists "Hello", (Q2Qc (65 # 100)). split; [reflexivity | exact Hlow].
Defined.

(** C6.  Whenever a turn of the loop announces a sign, the buffer is empty
    when the turn ends. *)
Theorem announcement_clears_buffer cfg st fr :
  is_Some (snd (step cfg st fr)) →
  stability_buffer (fst (step cfg st fr)) = [].
Proof.
  unfold step.
  assert (is_Some (snd (recognise cfg st fr)) →
          stability_buffer (fst (recognise cfg st fr)) = []) as Hrec.
  { unfold recognise.
    destruct (prediction fr) as [[sign conf]|]; [|done].
    case_bool_decide; [|done].
    destruct (observe _ _ _) as [buf []]; [|by intros [? [=]]].
    destruct (should_announce _ _ _ _) as [[] ann]; [done|].
    by intros [? [=]]. }
  destruct (recognise cfg st fr) as [st1 out]. cbn [fst snd] in *.
  intros Hout. specialize (Hrec Hout). unfold handle_key.
  by destruct (reset_key fr).
Qed.

Lemma announcement_clears_buffer_witness :
  snd (step scenario_config two_hellos (hello (Q2Qc (2 # 10)))) = said_hello
  ∧ stability_buffer
      (fst (step scenario_config two_hellos (hello (Q2Qc (2 # 10)))))
    = [].
Proof.
  assert (Hsaid : snd (step scenario_config two_hellos (hello (Q2Qc (2 # 10))))
                  = said_hello) by (vm_compute; reflexivity).
  split; [exact Hsaid|].
  apply (announcement_clears_buffer scenario_config two_hellos
           (hello (Q2Qc (2 # 10)))).
  rewrite Hsaid. eexists. reflexivity.
Defined.

(** C5.  The scenario, with threshold 0.7, three frames for stability and
    two seconds of cooldown.  "Hello" at 0.9 at t = 0, 0.1, 0.2 is
    announced once, at t = 0.2, and the buffer is then empty.  "Hello" at
    t = 0.3, 0.4, 0.5 fills the buffer again at t = 0.5, and nothing is
    announced, the gate being closed 0.3 s after t = 0.2.  A new run of
    "Hello" at t = 2.1, 2.2, 2.3 is announced at t = 2.3, whether the
    buffer was emptied in between (a frame without hands at t = 2.0) or
    not; so the whole stream has two announcements, at t = 0.2 and 2.3. *)
Theorem hello_scenario :
  run scenario_config initial first_run
  = (announced_at (Q2Qc (2 # 10)) [], [None; None; said_hello])
  ∧ run scenario_config (announced_at (Q2Qc (2 # 10)) []) second_run
    = (announced_at (Q2Qc (2 # 10)) ["Hello"; "Hello"; "Hello"],
       [None; None; None])
  ∧ should_announce (cooldown_seconds scenario_config) "Hello"
      (Q2Qc (5 # 10)) (Announcement (Some "Hello") (Q2Qc (2 # 10)))
    = (false, Announcement (Some "Hello") (Q2Qc (2 # 10)))
  ∧ run scenario_config initial
      (first_run ++ second_run ++ [no_hands (Q2Qc 2)] ++ third_run)
    = (announced_at (Q2Qc (23 # 10)) [],
       [None; None; said_hello; None; None; None; None;
        None; None; said_hello])
  ∧ run scenario_config initial (first_run ++ second_run ++ third_run)
    = (announced_at (Q2Qc (23 # 10)) [],
       [None; None; said_hello; None; None; None;
        None; None; said_hello]).
Proof.
  split; [vm_compute; reflexivity|].
  split; [vm_compute; reflexivity|].
  split; [vm_compute; reflexivity|].
  split; vm_compute; reflexivity.
Qed.

End frame_loop.

(** ** More on the normaliser: what a detection becomes *)

Section detections.
Import Store Utils Normalize Detection CollectData.

Implicit Types (h : heap) (a : list Qc) (m : list hand_landmarks).

(** Whether the hand has data or not, a complete slice comes out measured
    from its first landmark: for a slice without data both are zero. *)
Lemma norm_array_sub a a' hand t c :
  norm_array a = Some a' → hand < 2 → hand * 63 + 63 ≤ length a →
  t < 21 → c < 3 →
  a' !! (hand * 63 + 3 * t + c)
  = (x ← a !! (hand * 63 + 3 * t + c);
     w ← a !! (hand * 63 + c); Some (x - w)%Qc).
Proof.
  intros E Hh Hlen Ht Hc.
  destruct (norm_array_hand _ _ _ E Hh) as [Hin Hout].
  destruct (present hand a) eqn:Hp; [by apply Hin|].
  rewrite Hout by (done || lia).
  pose proof Hp as Hz. rewrite present_false in Hz by done.
  rewrite (Hz t c) by done.
  specialize (Hz 0 c). rewrite Nat.mul_0_r, Nat.add_0_r in Hz.
  rewrite Hz by lia. cbn. apply (f_equal Some). ring.
Qed.







Lemma flat_cons p hand :
  flat (p :: hand) = [p.1.1; p.1.2; p.2] ++ flat hand.
Proof. by destruct p as [[x y] z]. Qed.

Lemma flat_length hand : length (flat hand) = 3 * length hand.
Proof.
  induction hand as [|p hand IH]; [done|].
  rewrite flat_cons, length_app, IH. cbn. lia.
Qed.

Lemma flat_lookup hand : ∀ t c,
  c < 3 → flat hand !! (3 * t + c) = coord c <$> hand !! t.
Proof.
  induction hand as [|p hand IH]; intros t c Hc; [done|].
  rewrite flat_cons. destruct t as [|t].
  - rewrite lookup_app_l by (cbn; lia).
    by destruct c as [|[|[|c]]]; [| | |lia].
  - rewrite lookup_app_r by (cbn; lia).
    replace (3 * S t + c - length [p.1.1; p.1.2; p.2]) with (3 * t + c)
      by (cbn; lia).
    by apply IH.
Qed.

Lemma sample_one (fst_hand : hand_landmarks) :
  length fst_hand = 21 → sample [fst_hand] = flat fst_hand ++ replicate 63 0%Qc.
Proof.
  intros Hfst. unfold sample, collect. cbn [length Nat.min take mbind list_bind].
  fold (flat fst_hand). rewrite app_nil_r, flat_length, Hfst.
  apply take_ge. rewrite length_app, flat_length, length_replicate. lia.
Qed.

Lemma sample_two (fst_hand snd_hand : hand_landmarks) rest :
  length fst_hand = 21 → length snd_hand = 21 →
  sample (fst_hand :: snd_hand :: rest) = flat fst_hand ++ flat snd_hand.
Proof.
  intros Hfst Hsnd. unfold sample, collect.
  cbn [length Nat.min take mbind list_bind].
  fold (flat fst_hand). fold (flat snd_hand).
  rewrite app_nil_r, length_app, !flat_length, Hfst, Hsnd.
  cbn [replicate Nat.sub Nat.mul Nat.add]. rewrite app_nil_r.
  apply take_ge. rewrite length_app, !flat_length. lia.
Qed.

(** The row of a detection whose hands have 21 landmarks each: the
    coordinates of the first two hands, zeros for a hand that is not
    there. *)
Lemma sample_lookup m k t c :
  Forall (λ hand, length hand = 21) (take 2 m) → k < 2 → t < 21 → c < 3 →
  sample m !! (k * 63 + 3 * t + c)
  = match m !! k with
    | Some hand => coord c <$> hand !! t
    | None => Some 0%Qc
    end.
Proof.
  intros Hall Hk Ht Hc. destruct m as [|h0 [|h1 rest]].
  - assert (sample [] = replicate 126 0%Qc) as -> by reflexivity.
    rewrite lookup_replicate_2 by lia. by destruct k.
  - apply Forall_cons in Hall as [H0 _]. rewrite (sample_one _ H0).
    destruct k as [|[|k]]; [| |lia]; cbn [lookup list_lookup].
    + rewrite lookup_app_l by (rewrite flat_length; lia).
      by apply flat_lookup.
    + rewrite lookup_app_r by (rewrite flat_length; lia).
      apply lookup_replicate_2. rewrite flat_length. lia.
  - cbn [take] in Hall.
    apply Forall_cons in Hall as [H0 Hall].
    apply Forall_cons in Hall as [H1 _]. rewrite (sample_two _ _ _ H0 H1).
    destruct k as [|[|k]]; [| |lia]; cbn [lookup list_lookup].
    + rewrite lookup_app_l by (rewrite flat_length; lia).
      by apply flat_lookup.
    + rewrite lookup_app_r by (rewrite flat_length; lia).
      rewrite flat_length, H0.
      replace (1 * 63 + 3 * t + c - 3 * 21) with (3 * t + c) by lia.
      by apply flat_lookup.
Qed.

Lemma sample_length m : length (sample m) = 126.
Proof.
  unfold sample. rewrite length_take. pose proof (collect_length m). lia.
Qed.

(** The run of [extract_landmarks] on a detection with a hand. *)
Lemma extract_landmarks_run m h :
  m ≠ [] →
  ∃ a' normalized h',
    norm_array (sample m) = Some a'
    ∧ extract_landmarks m h = Some (Some normalized, h')
    ∧ h' !! normalized = Some a'.
Proof.
  intros Hm. unfold extract_landmarks.
  rewrite bool_decide_eq_false_2 by done. fold (sample m).
  destruct (norm_array_total (sample m)) as [a' E];
    [rewrite sample_length; lia|].
  set (h0 := <[fresh (dom h) := sample m]> h).
  exists a', (fresh (dom h0)), (<[fresh (dom h0) := a']> h0).
  split; [done|]. split; [|apply lookup_insert_eq].
  unfold mbind at 1, M_bind at 1, bind at 1, np_array. fold h0.
  unfold mbind at 1, M_bind at 1, bind at 1.
  rewrite (normalize_landmarks_Some _ h0 (sample m) a');
    [done | apply lookup_insert_eq | done].
Qed.

(** X2.  What [extract_landmarks] returns for a detection whose hands have
    21 landmarks each: a vector of 126 elements in which landmark [t] of
    each of the first two hands is given by its coordinates less those of
    landmark 0 of the same hand, and the slots of a hand that was not
    detected are zero; further hands are ignored. *)
Theorem extract_landmarks_wrist_relative m h :
  m ≠ [] → Forall (λ hand, length hand = 21) (take 2 m) →
  ∃ normalized h' a',
    extract_landmarks m h = Some (Some normalized, h')
    ∧ h' !! normalized = Some a'
    ∧ length a' = 126
    ∧ ∀ k t c, k < 2 → t < 21 → c < 3 →
        a' !! (k * 63 + 3 * t + c)
        = match m !! k with
          | Some hand =>
              p ← hand !! t; wrist ← hand !! 0;
              Some (coord c p - coord c wrist)%Qc
          | None => Some 0%Qc
          end.
Proof.
  intros Hm Hall.
  destruct (extract_landmarks_run m h Hm) as (a' & n & h' & E & Hrun & Hn).
  exists n, h', a'. split; [done|]. split; [done|].
  split; [by rewrite (norm_array_length _ _ E), sample_length|].
  intros k t c Hk Ht Hc.
  rewrite (norm_array_sub _ _ _ _ _ E) by (done || rewrite sample_length; lia).
  rewrite (sample_lookup m k t c) by done.
  pose proof (sample_lookup m k 0 c Hall Hk) as Hw.
  rewrite Nat.mul_0_r, Nat.add_0_r in Hw. rewrite Hw by lia.
  destruct (m !! k) as [hand|]; [|cbn; apply (f_equal Some); ring].
  destruct (hand !! t) as [p|]; [cbn | done].
  by destruct (hand !! 0) as [w|].
Qed.

Lemma extract_landmarks_wrist_relative_witness :
  [diagonal_hand (Q2Qc (1 # 2))] ≠ []
  ∧ ∃ normalized h' a',
      extract_landmarks [diagonal_hand (Q2Qc (1 # 2))] ∅
      = Some (Some normalized, h')
      ∧ h' !! normalized = Some a' ∧ length a' = 126.
Proof.
  split; [discriminate|].
  destruct (extract_landmarks_wrist_relative [diagonal_hand (Q2Qc (1 # 2))] ∅)
    as (n & h' & a' & E & Hn & Hlen & _).
  - discriminate.
  - repeat constructor.
  - exists n, h', a'. split; [exact E|]. split; [exact Hn | exact Hlen].
Defined.






(** A vector of 126 elements is its own normal form exactly when the
    wrist of each hand with data is at the origin. *)
Lemma norm_array_fixed_iff a :
  126 ≤ length a →
  norm_array a = Some a ↔
  ∀ hand c, hand < 2 → c < 3 → present hand a = true →
    a !! (hand * 63 + c) = Some 0%Qc.
Proof.
  intros Hlen. split.
  - intros E hand c Hh Hc Hp. by apply (norm_array_wrist a a).
  - intros Hw.
    assert (∀ hand, hand < 2 → norm_hand hand a = Some a) as Hfix.
    { intros hand Hh. apply norm_hand_fixed. intros Hp.
      split; [lia|]. intros c Hc. by apply Hw. }
    unfold norm_array. rewrite (Hfix 0) by lia. cbn [mbind option_bind].
    apply Hfix. lia.
Qed.

(** X4.  The rows that [collect_data] stores are not what
    [extract_landmarks] gives to the classifier: for one and the same
    detection the two vectors are equal exactly when the first landmark of
    every hand with data in the row is at (0, 0, 0). *)
Theorem stored_row_is_features_iff_wrists_at_origin m h :
  m ≠ [] →
  ∃ normalized h' a',
    extract_landmarks m h = Some (Some normalized, h')
    ∧ h' !! normalized = Some a'
    ∧ (a' = sample m ↔
       ∀ hand c, hand < 2 → c < 3 → present hand (sample m) = true →
         sample m !! (hand * 63 + c) = Some 0%Qc).
Proof.
  intros Hm.
  destruct (extract_landmarks_run m h Hm) as (a' & n & h' & E & Hrun & Hn).
  exists n, h', a'. split; [done|]. split; [done|].
  rewrite <- norm_array_fixed_iff by (rewrite sample_length; lia).
  rewrite E. split; [by intros -> | by intros [= ->]].
Qed.

Lemma stored_row_is_features_iff_wrists_at_origin_witness :
  [diagonal_hand (Q2Qc (1 # 2))] ≠ []
  ∧ ∃ normalized h' a',
      extract_landmarks [diagonal_hand (Q2Qc (1 # 2))] ∅
      = Some (Some normalized, h')
      ∧ h' !! normalized = Some a'
      ∧ a' ≠ sample [diagonal_hand (Q2Qc (1 # 2))].
Proof.
  split; [discriminate|].
  destruct (stored_row_is_features_iff_wrists_at_origin
              [diagonal_hand (Q2Qc (1 # 2))] ∅)
    as (n & h' & a' & E & Hn & Hiff); [discriminate|].
  exists n, h', a'. split; [exact E|]. split; [exact Hn|].
  intros Heq. destruct Hiff as [Hto _].
  assert (sample [diagonal_hand (Q2Qc (1 # 2))] !! 0 = Some 0%Qc) as Hz.
  { apply (Hto Heq 0 0); [lia | lia | vm_compute; reflexivity]. }
  vm_compute in Hz. discriminate Hz.
Defined.

End detections.

(** ** The frame loop over a stream: what is announced, and when *)

Section announcements.
Import Pipeline Trace.

Implicit Types (cfg : config) (st : state) (fr : frame) (ann : announcement).
Implicit Types (buf : list string) (sign : string).

Lemma should_announce_snd cooldown sign now ann :
  snd (should_announce cooldown sign now ann)
  = if fst (should_announce cooldown sign now ann)
    then Announcement (Some sign) now
    else ann.
Proof. unfold should_announce. by destruct (_ || _). Qed.

Lemma should_announce_fires cooldown sign now ann :
  fst (should_announce cooldown sign now ann) = true →
  Some sign = last_announced_sign ann →
  (cooldown < now - last_announcement_time ann)%Qc.
Proof.
  unfold should_announce. intros Hfire Hsame.
  destruct (bool_decide (Some sign ≠ _)) eqn:Hd.
  - by apply bool_decide_eq_true in Hd.
  - cbn [orb] in Hfire. case_bool_decide; [done | discriminate Hfire].
Qed.

Lemma should_announce_new cooldown sign now ann :
  Some sign ≠ last_announced_sign ann →
  fst (should_announce cooldown sign now ann) = true.
Proof.
  intros Hne. unfold should_announce.
  by rewrite (bool_decide_eq_true_2 _ Hne).
Qed.

(** A turn that announces. *)
Lemma step_some cfg st fr sign confidence :
  snd (step cfg st fr) = Some (sign, confidence) →
  prediction fr = Some (sign, confidence)
  ∧ confident cfg fr = Some sign
  ∧ stable (stability_frames cfg)
      (push (stability_frames cfg) (stability_buffer st) sign) sign = true
  ∧ fst (should_announce (cooldown_seconds cfg) sign (current_time fr)
           (announced st)) = true
  ∧ stability_buffer (fst (step cfg st fr)) = []
  ∧ (reset_key fr = false →
     announced (fst (step cfg st fr))
     = Announcement (Some sign) (current_time fr)).
Proof.
  unfold step, recognise, observe, confident, handle_key.
  destruct (prediction fr) as [[s c]|]; [|done].
  case_bool_decide; [|done].
  destruct (stable _ _ _) eqn:Hst; [|done].
  pose proof (should_announce_snd (cooldown_seconds cfg) s (current_time fr)
                (announced st)) as Hsnd.
  destruct (should_announce _ _ _ _) as [[] ann'] eqn:Hg; [|done].
  cbn in *. intros [= <- <-]. subst ann'. rewrite Hg.
  repeat split; try done; by destruct (reset_key fr).
Qed.

(** A turn that does not: either the frame does not count and the buffer
    is emptied, or it counts and its label is pushed, the buffer being
    unstable or the gate closed. *)
Lemma step_none cfg st fr :
  snd (step cfg st fr) = None →
  (reset_key fr = false →
   announced (fst (step cfg st fr)) = announced st)
  ∧ ((confident cfg fr = None ∧ stability_buffer (fst (step cfg st fr)) = [])
     ∨ ∃ sign,
         confident cfg fr = Some sign
         ∧ stability_buffer (fst (step cfg st fr))
           = (if reset_key fr then []
              else push (stability_frames cfg) (stability_buffer st) sign)
         ∧ ¬ (stable (stability_frames cfg)
                (push (stability_frames cfg) (stability_buffer st) sign)
                sign = true
              ∧ fst (should_announce (cooldown_seconds cfg) sign
                       (current_time fr) (announced st)) = true)).
Proof.
  unfold step, recognise, observe, confident, handle_key.
  destruct (prediction fr) as [[s c]|].
  2:{ intros _. split; [by intros ->|]. left. by destruct (reset_key fr). }
  case_bool_decide.
  2:{ intros _. split; [by intros ->|]. left. by destruct (reset_key fr). }
  destruct (stable _ _ _) eqn:Hst.
  - pose proof (should_announce_snd (cooldown_seconds cfg) s (current_time fr)
                  (announced st)) as Hsnd.
    destruct (should_announce _ _ _ _) as [[] ann'] eqn:Hg; [done|].
    cbn in *. subst ann'. intros _. split; [by intros ->|].
    right. exists s. split; [done|].
    split; [by destruct (reset_key fr)|]. rewrite Hg. by intros [_ ?].
  - intros _. split; [by intros ->|]. right. exists s. split; [done|].
    split; [by destruct (reset_key fr)|]. rewrite Hst. by intros [? _].
Qed.

Lemma run_cons cfg st fr frames :
  run cfg st (fr :: frames)
  = (fst (run cfg (fst (step cfg st fr)) frames),
     snd (step cfg st fr) :: snd (run cfg (fst (step cfg st fr)) frames)).
Proof.
  cbn [run]. destruct (step cfg st fr) as [st1 out]. cbn [fst snd].
  by destruct (run cfg st1 frames).
Qed.

Lemma run_length_outs cfg frames : ∀ st,
  length (snd (run cfg st frames)) = length frames.
Proof.
  induction frames as [|fr frames IH]; intros st; [done|].
  rewrite run_cons. cbn. by rewrite IH.
Qed.

Lemma stable_replicate N buf sign :
  stable N buf sign = true → buf = replicate (Z.to_nat N) sign.
Proof.
  rewrite stable_spec. intros [Hlen Hall]. symmetry.
  apply replicate_as_Forall_2; [lia|].
  eapply Forall_impl; [exact Hall|]. by intros s' ->.
Qed.

Lemma push_suffix N buf sign (labels : list (option string)) :
  (Some <$> buf) `suffix_of` labels →
  (Some <$> push N buf sign) `suffix_of` (labels ++ [Some sign]).
Proof.
  intros Hsuf.
  assert ((Some <$> buf ++ [sign]) `suffix_of` (labels ++ [Some sign])) as Happ.
  { rewrite fmap_app. by apply suffix_app. }
  unfold push. case_bool_decide; [|done].
  rewrite fmap_drop. etrans; [apply suffix_drop | exact Happ].
Qed.

Lemma push_length_le N buf sign : length (push N buf sign) ≤ length buf + 1.
Proof.
  unfold push. case_bool_decide.
  - rewrite length_drop, length_app. cbn. lia.
  - rewrite length_app. cbn. lia.
Qed.

(** The buffer holds labels of the last frames, and all of them count. *)
Lemma step_suffix cfg st fr (labels : list (option string)) :
  (Some <$> stability_buffer st) `suffix_of` labels →
  (Some <$> stability_buffer (fst (step cfg st fr)))
    `suffix_of` (labels ++ [confident cfg fr]).
Proof.
  intros Hsuf. destruct (snd (step cfg st fr)) as [[s c]|] eqn:Hout.
  - apply step_some in Hout as (_ & _ & _ & _ & -> & _). apply suffix_nil.
  - apply step_none in Hout as [_ [[_ ->]|(s & -> & -> & _)]];
      [apply suffix_nil|].
    destruct (reset_key fr); [apply suffix_nil | by apply push_suffix].
Qed.

Lemma run_suffix cfg frames : ∀ st (labels : list (option string)) i sign c,
  (Some <$> stability_buffer st) `suffix_of` labels →
  snd (run cfg st frames) !! i = Some (Some (sign, c)) →
  replicate (Z.to_nat (stability_frames cfg)) (Some sign)
    `suffix_of` (labels ++ (confident cfg <$> take (S i) frames))
  ∧ prediction <$> frames !! i = Some (Some (sign, c)).
Proof.
  induction frames as [|fr frames IH]; intros st labels i sign c Hsuf Hout;
    [done|].
  rewrite run_cons in Hout. cbn [snd] in Hout. destruct i as [|i].
  - cbn in Hout. injection Hout as Hout.
    apply step_some in Hout as (Hpred & Hconf & Hst & _).
    split; [|by rewrite <- Hpred].
    apply stable_replicate in Hst.
    cbn [take fmap list_fmap]. rewrite Hconf, <- fmap_replicate, <- Hst.
    by apply push_suffix.
  - cbn [lookup list_lookup] in Hout.
    destruct (IH _ (labels ++ [confident cfg fr]) i sign c
                (step_suffix cfg st fr labels Hsuf) Hout) as [Hrun Hpred].
    split; [|done].
    by rewrite <- app_assoc in Hrun.
Qed.

(** X5.  Nothing is announced that was not seen long enough: when the loop
    starts with an empty buffer and announces a sign in turn [i], the
    frames up to turn [i] end with [stability_frames] frames in a row whose
    top label is that sign with a confidence of at least the threshold; and
    the confidence announced is that of the frame of turn [i]. *)
Theorem announcement_follows_stable_run cfg st frames i sign c :
  stability_buffer st = [] →
  snd (run cfg st frames) !! i = Some (Some (sign, c)) →
  (∃ earlier,
     confident cfg <$> take (S i) frames
     = earlier ++ replicate (Z.to_nat (stability_frames cfg)) (Some sign))
  ∧ prediction <$> frames !! i = Some (Some (sign, c)).
Proof.
  intros Hempty Hout.
  destruct (run_suffix cfg frames st [] i sign c) as [[earlier Hsuf] Hpred];
    [rewrite Hempty; apply suffix_nil | done |].
  split; [|done]. by exists earlier.
Qed.

Lemma announcement_follows_stable_run_witness :
  stability_buffer initial = []
  ∧ snd (run scenario_config initial first_run) !! 2 = Some said_hello
  ∧ ∃ earlier,
      confident scenario_config <$> take 3 first_run
      = earlier ++ replicate 3 (Some "Hello").
Proof.
  assert (Hout : snd (run scenario_config initial first_run) !! 2
                 = Some said_hello) by (vm_compute; reflexivity).
  split; [reflexivity|]. split; [exact Hout|].
  destruct (announcement_follows_stable_run scenario_config initial first_run
              2 "Hello" (Q2Qc (9 # 10))) as [Hrun _];
    [reflexivity | exact Hout | exact Hrun].
Defined.

Lemma timeline_cons fr frames out outs :
  timeline (fr :: frames) (out :: outs)
  = match out with
    | Some (sign, _) => (current_time fr, sign) :: timeline frames outs
    | None => timeline frames outs
    end.
Proof. unfold timeline. cbn. by destruct out as [[s c]|]. Qed.

Lemma run_debounced cfg frames : ∀ st,
  Forall (λ fr, reset_key fr = false) frames →
  debounced (cooldown_seconds cfg) (announced st)
    (timeline frames (snd (run cfg st frames))).
Proof.
  induction frames as [|fr frames IH]; intros st Hkeys; [done|].
  apply Forall_cons in Hkeys as [Hkey Hkeys].
  rewrite run_cons. cbn [snd]. rewrite timeline_cons.
  specialize (IH (fst (step cfg st fr)) Hkeys).
  destruct (snd (step cfg st fr)) as [[s c]|] eqn:Hout.
  - apply step_some in Hout as (_ & _ & _ & Hfire & _ & Hann).
    rewrite (Hann Hkey) in IH. split; [|done].
    by apply should_announce_fires.
  - apply step_none in Hout as [Hann _]. by rewrite (Hann Hkey) in IH.
Qed.

Lemma debounced_adjacent cooldown events : ∀ ann i t1 t2 sign,
  debounced cooldown ann events →
  events !! i = Some (t1, sign) → events !! S i = Some (t2, sign) →
  (cooldown < t2 - t1)%Qc.
Proof.
  induction events as [|[t s] events IH]; intros ann i t1 t2 sign Hdeb H1 H2;
    [done|].
  destruct Hdeb as [_ Hdeb]. destruct i as [|i].
  - cbn in H1. injection H1 as -> ->.
    destruct events as [|[t' s'] events]; [done|].
    cbn in H2. injection H2 as -> ->.
    destruct Hdeb as [Hgap _]. by apply Hgap.
  - by apply (IH _ i t1 t2 sign Hdeb).
Qed.

(** X6.  The same sign is not repeated within the cooldown: over any
    stream of frames in which the reset key is not pressed, whenever two
    announcements in a row are of the same sign, the clock of the second is
    more than [cooldown_seconds] after the clock of the first. *)
Theorem repeats_wait_for_cooldown cfg st frames i t1 t2 sign :
  Forall (λ fr, reset_key fr = false) frames →
  timeline frames (snd (run cfg st frames)) !! i = Some (t1, sign) →
  timeline frames (snd (run cfg st frames)) !! S i = Some (t2, sign) →
  (cooldown_seconds cfg < t2 - t1)%Qc.
Proof.
  intros Hkeys. apply debounced_adjacent with (ann := announced st).
  by apply run_debounced.
Qed.

Lemma repeats_wait_for_cooldown_witness :
  Forall (λ fr, reset_key fr = false) (first_run ++ second_run ++ third_run)
  ∧ (cooldown_seconds scenario_config < Q2Qc (23 # 10) - Q2Qc (2 # 10))%Qc.
Proof.
  assert (Hkeys : Forall (λ fr, reset_key fr = false)
                    (first_run ++ second_run ++ third_run))
    by (repeat constructor).
  split; [exact Hkeys|].
  apply (repeats_wait_for_cooldown scenario_config initial
           (first_run ++ second_run ++ third_run) 0 _ _ "Hello" Hkeys);
    vm_compute; reflexivity.
Defined.

(** From a buffer of [length buf] labels, the first announcement needs the
    turns that fill the buffer. *)
Lemma first_announcement_late cfg frames : ∀ st j a,
  snd (run cfg st frames) !! j = Some (Some a) →
  (stability_frames cfg
   ≤ Z.of_nat (length (stability_buffer st)) + Z.of_nat j + 1)%Z.
Proof.
  induction frames as [|fr frames IH]; intros st j a Hout; [done|].
  rewrite run_cons in Hout. cbn [snd] in Hout.
  pose proof (push_length_le (stability_frames cfg) (stability_buffer st))
    as Hpush.
  destruct j as [|j].
  - cbn in Hout. injection Hout as Hout. destruct a as [s c].
    apply step_some in Hout as (_ & _ & Hst & _).
    apply stable_spec in Hst as [Hlen _]. specialize (Hpush s). lia.
  - cbn [lookup list_lookup] in Hout. apply IH in Hout.
    assert (length (stability_buffer (fst (step cfg st fr)))
            ≤ length (stability_buffer st) + 1) as Hgrow.
    { destruct (snd (step cfg st fr)) as [[s c]|] eqn:Hstep.
      - apply step_some in Hstep as (_ & _ & _ & _ & -> & _). cbn. lia.
      - apply step_none in Hstep as [_ [[_ ->]|(s & _ & -> & _)]];
          [cbn; lia|].
        destruct (reset_key fr); [cbn; lia | apply Hpush]. }
    lia.
Qed.

(** X7.  Announcements are at least [stability_frames] turns apart: over
    any stream of frames and from any state, if turn [i] and a later turn
    [j] both announce something, then [j - i >= stability_frames]. *)
Theorem announcements_are_apart cfg frames : ∀ st i j a b,
  i < j →
  snd (run cfg st frames) !! i = Some (Some a) →
  snd (run cfg st frames) !! j = Some (Some b) →
  (stability_frames cfg ≤ Z.of_nat (j - i))%Z.
Proof.
  induction frames as [|fr frames IH]; intros st i j a b Hij Hi Hj; [done|].
  rewrite run_cons in Hi, Hj. cbn [snd] in Hi, Hj.
  destruct j as [|j]; [lia|]. cbn [lookup list_lookup] in Hj.
  destruct i as [|i].
  - cbn in Hi. injection Hi as Hi. destruct a as [s c].
    apply step_some in Hi as (_ & _ & _ & _ & Hempty & _).
    apply first_announcement_late in Hj. rewrite Hempty in Hj.
    cbn in Hj. lia.
  - cbn [lookup list_lookup] in Hi.
    replace (S j - S i) with (j - i) by lia.
    apply (IH (fst (step cfg st fr)) i j a b); [lia | done | done].
Qed.

Lemma announcements_are_apart_witness :
  2 < 8
  ∧ snd (run scenario_config initial (first_run ++ second_run ++ third_run))
      !! 2 = Some said_hello
  ∧ snd (run scenario_config initial (first_run ++ second_run ++ third_run))
      !! 8 = Some said_hello
  ∧ (stability_frames scenario_config ≤ Z.of_nat (8 - 2))%Z.
Proof.
  assert (H2 : snd (run scenario_config initial
                      (first_run ++ second_run ++ third_run)) !! 2
               = Some said_hello) by (vm_compute; reflexivity).
  assert (H8 : snd (run scenario_config initial
                      (first_run ++ second_run ++ third_run)) !! 8
               = Some said_hello) by (vm_compute; reflexivity).
  split; [lia|]. split; [exact H2|]. split; [exact H8|].
  apply (announcements_are_apart scenario_config
           (first_run ++ second_run ++ third_run) initial 2 8
           ("Hello", Q2Qc (9 # 10)) ("Hello", Q2Qc (9 # 10)));
    [lia | exact H2 | exact H8].
Defined.

Lemma push_replicate N buf sign k :
  replicate k sign `suffix_of` buf →
  (Z.of_nat (length buf) ≤ N)%Z → (Z.of_nat k + 1 ≤ N)%Z →
  replicate (S k) sign `suffix_of` push N buf sign
  ∧ (Z.of_nat (length (push N buf sign)) ≤ N)%Z.
Proof.
  intros [pre ->] Hlen Hk.
  rewrite length_app, length_replicate in Hlen.
  unfold push. cbv zeta. rewrite <- app_assoc, replicate_snoc.
  case_bool_decide as Hover; rewrite length_app, length_replicate in Hover.
  - destruct pre as [|p pre]; [cbn in *; lia|].
    change (drop 1 ((p :: pre) ++ replicate (S k) sign))
      with (pre ++ replicate (S k) sign).
    split; [by exists pre|].
    rewrite length_app, length_replicate. cbn in *. lia.
  - split; [by exists pre|]. rewrite length_app, length_replicate. lia.
Qed.

Lemma held_run cfg sign frames : ∀ st k,
  frames ≠ [] →
  Forall (λ fr, reset_key fr = false ∧ confident cfg fr = Some sign) frames →
  Some sign ≠ last_announced_sign (announced st) →
  replicate k sign `suffix_of` stability_buffer st →
  (Z.of_nat (length (stability_buffer st)) ≤ stability_frames cfg)%Z →
  Z.of_nat (k + length frames) = stability_frames cfg →
  ∃ c, Some (sign, c) ∈ snd (run cfg st frames).
Proof.
  induction frames as [|fr frames IH]; intros st k Hne Hall Hnew Hsuf Hlen Hk;
    [done|].
  apply Forall_cons in Hall as [[Hkey Hconf] Hall].
  rewrite run_cons. cbn [snd length] in *.
  destruct (snd (step cfg st fr)) as [[s c]|] eqn:Hout.
  - apply step_some in Hout as (_ & Hconf' & _).
    assert (s = sign) as -> by congruence.
    exists c. apply elem_of_cons. by left.
  - apply step_none in Hout as [Hann [[Hconf' _]|(s & Hconf' & Hbuf & Hquiet)]];
      [congruence|].
    assert (s = sign) as -> by congruence.
    rewrite Hkey in Hbuf.
    destruct (push_replicate (stability_frames cfg) (stability_buffer st)
                sign k Hsuf Hlen) as [Hsuf' Hlen']; [lia|].
    destruct frames as [|fr' frames].
    + destruct Hquiet. split; [|by apply should_announce_new].
      apply stable_spec.
      assert (replicate (S k) sign
              = push (stability_frames cfg) (stability_buffer st) sign) as <-.
      { apply suffix_length_eq; [done|]. rewrite length_replicate.
        cbn in Hk. lia. }
      rewrite length_replicate. split; [cbn in Hk; lia|].
      by apply Forall_replicate.
    + destruct (IH (fst (step cfg st fr)) (S k)) as [c Hc];
        [done | done | by rewrite (Hann Hkey) | by rewrite Hbuf
        | by rewrite Hbuf | cbn [length] in *; lia |].
      exists c. apply elem_of_cons. by right.
Qed.

(** X8.  A new sign that is held is announced: from any state whose buffer
    is within [stability_frames], if [stability_frames >= 1] frames in a
    row have the same top label with a confidence of at least the
    threshold, the reset key is not pressed, and that label is not the sign
    announced last, then one of these frames announces it. *)
Theorem held_sign_is_announced cfg st frames sign :
  (1 ≤ stability_frames cfg)%Z →
  (Z.of_nat (length (stability_buffer st)) ≤ stability_frames cfg)%Z →
  Z.of_nat (length frames) = stability_frames cfg →
  Forall (λ fr, reset_key fr = false ∧ confident cfg fr = Some sign) frames →
  Some sign ≠ last_announced_sign (announced st) →
  ∃ c, Some (sign, c) ∈ snd (run cfg st frames).
Proof.
  intros HN Hlen Hframes Hall Hnew.
  apply (held_run cfg sign frames st 0); try done.
  - intros ->. cbn in Hframes. lia.
  - apply suffix_nil.
Qed.

Lemma held_sign_is_announced_witness :
  (1 ≤ stability_frames scenario_config)%Z
  ∧ Some "Hello" ≠ last_announced_sign (announced initial)
  ∧ ∃ c, Some ("Hello", c) ∈ snd (run scenario_config initial first_run).
Proof.
  split; [vm_compute; discriminate|]. split; [discriminate|].
  apply (held_sign_is_announced scenario_config initial first_run "Hello").
  - vm_compute. discriminate.
  - vm_compute. discriminate.
  - reflexivity.
  - repeat constructor.
  - discriminate.
Defined.

(** X9.  A negative [stability_frames] silences the loop: whatever the
    frames, nothing is ever announced. *)
Theorem negative_stability_frames_silences cfg frames : ∀ st,
  (stability_frames cfg < 0)%Z →
  snd (run cfg st frames) = replicate (length frames) None.
Proof.
  induction frames as [|fr frames IH]; intros st HN; [done|].
  rewrite run_cons. cbn [snd length replicate].
  destruct (snd (step cfg st fr)) as [[s c]|] eqn:Hout.
  - apply step_some in Hout as (_ & _ & Hst & _).
    apply stable_spec in Hst as [Hlen _]. lia.
  - f_equal. by apply IH.
Qed.

Lemma negative_stability_frames_silences_witness :
  (stability_frames negative_config < 0)%Z
  ∧ snd (run negative_config initial first_run) = [None; None; None].
Proof.
  split; [reflexivity|].
  apply (negative_stability_frames_silences negative_config first_run initial).
  reflexivity.
Defined.

End announcements.

(** ** The top class of a prediction *)

Section classification.
Import Classify.

Implicit Types (xs : list Qc) (labels : list string).

Lemma argmax_from_spec xs : ∀ (pre : list Qc) best_idx best,
  first_max pre best_idx best →
  ∃ c, first_max (pre ++ xs) (argmax_from best_idx best (length pre) xs) c.
Proof.
  induction xs as [|x xs IH]; intros pre best_idx best (Hb & Hmax & Hfirst).
  - exists best. by rewrite app_nil_r.
  - cbn [argmax_from].
    replace (pre ++ x :: xs) with ((pre ++ [x]) ++ xs)
      by (by rewrite <- app_assoc).
    replace (S (length pre)) with (length (pre ++ [x]))
      by (rewrite length_app; cbn; lia).
    pose proof (lookup_lt_Some _ _ _ Hb) as Hlt.
    case_bool_decide as Hx; apply IH; (split; [|split]).
    + by apply list_lookup_middle.
    + intros j y Hj. apply lookup_app_Some in Hj as [Hj|[_ Hj]].
      * apply Qclt_le_weak, Qcle_lt_trans with best; [by eapply Hmax | done].
      * destruct (j - length pre) as [|n]; [|done].
        injection Hj as <-. apply Qcle_refl.
    + intros j y Hj Hy. rewrite lookup_app_l in Hy by lia.
      apply Qcle_lt_trans with best; [by eapply Hmax | done].
    + by apply lookup_app_l_Some.
    + intros j y Hj. apply lookup_app_Some in Hj as [Hj|[_ Hj]].
      * by eapply Hmax.
      * destruct (j - length pre) as [|n]; [|done].
        injection Hj as <-. by apply Qcnot_lt_le.
    + intros j y Hj Hy. rewrite lookup_app_l in Hy by lia.
      by eapply Hfirst.
Qed.

Lemma argmax_spec xs :
  match argmax xs with
  | Some i => ∃ c, first_max xs i c
  | None => xs = []
  end.
Proof.
  destruct xs as [|x xs]; [done|]. cbn [argmax].
  apply (argmax_from_spec xs [x] 0 x). split; [done|]. split.
  - intros [|j] y Hj; [|done]. injection Hj as <-. apply Qcle_refl.
  - intros j y Hj. lia.
Qed.

(** X10.  [get_sign_text] in full.  It raises when the prediction is
    empty, or when the largest probability reaches the threshold and
    [labels] has no entry at its place.  Otherwise the confidence returned
    is the largest probability, and the sign returned is the label at the
    first place where the largest probability is when it is at least the
    threshold, and no sign when it is below. *)
Theorem get_sign_text_cases xs labels threshold :
  match get_sign_text xs labels threshold with
  | None =>
      xs = []
      ∨ ∃ i c, first_max xs i c
               ∧ (threshold ≤ c)%Qc ∧ length labels ≤ i
  | Some (Some label, confidence) =>
      ∃ i, first_max xs i confidence
           ∧ (threshold ≤ confidence)%Qc ∧ labels !! i = Some label
  | Some (None, confidence) =>
      ∃ i, first_max xs i confidence ∧ (confidence < threshold)%Qc
  end.
Proof.
  unfold get_sign_text. pose proof (argmax_spec xs) as Hmax.
  destruct (argmax xs) as [i|]; [|by left]. destruct Hmax as [c Hmax].
  cbn [mbind option_bind]. rewrite (proj1 Hmax). cbn [mbind option_bind].
  case_bool_decide as Hc.
  - destruct (labels !! i) as [label|] eqn:Hl; cbn.
    + by exists i.
    + right. exists i, c. split; [done|]. split; [done|].
      by apply lookup_ge_None.
  - exists i. split; [done|]. by apply Qcnot_le_lt.
Qed.

(** X11.  With a label for every class, [get_sign_text] does not raise on
    a non-empty prediction, and it returns a sign exactly when some class
    has a probability of at least the threshold. *)
Theorem get_sign_text_names_sign_iff xs labels threshold :
  xs ≠ [] → length xs ≤ length labels →
  ∃ sign confidence,
    get_sign_text xs labels threshold = Some (sign, confidence)
    ∧ (is_Some sign ↔ ∃ j x, xs !! j = Some x ∧ (threshold ≤ x)%Qc).
Proof.
  intros Hne Hlen. unfold get_sign_text.
  pose proof (argmax_spec xs) as Hmax.
  destruct (argmax xs) as [i|]; [|done]. destruct Hmax as [c (Hi & Hmax & _)].
  cbn [mbind option_bind]. rewrite Hi. cbn [mbind option_bind].
  case_bool_decide as Hc.
  - destruct (lookup_lt_is_Some_2 labels i) as [label ->].
    { apply lookup_lt_Some in Hi. lia. }
    exists (Some label), c. split; [done|]. split; [|done].
    intros _. by exists i, c.
  - exists None, c. split; [done|]. split; [by intros [? [=]]|].
    intros (j & x & Hj & Hx). destruct Hc.
    apply Qcle_trans with x; [done|]. by eapply Hmax.
Qed.

Lemma get_sign_text_names_sign_iff_witness :
  three_classes ≠ []
  ∧ length three_classes ≤ length three_labels
  ∧ ∃ sign confidence,
      get_sign_text three_classes three_labels (Q2Qc (7 # 10))
      = Some (sign, confidence)
      ∧ is_Some sign.
Proof.
  split; [discriminate|]. split; [vm_compute; lia|].
  destruct (get_sign_text_names_sign_iff three_classes three_labels
              (Q2Qc (7 # 10)))
    as (sign & confidence & E & Hiff); [discriminate | vm_compute; lia |].
  exists sign, confidence. split; [exact E|].
  apply Hiff. exists 1, (Q2Qc (8 # 10)).
  split; [reflexivity | vm_compute; discriminate].
Defined.

End classification.

(** ** The collection loop of collect_data.py *)

Section collection.
Import Utils CollectData.

Implicit Types (samples : Z) (st : state) (tn : turn).

Lemma store_sample_consistent samples st tn :
  consistent samples st → consistent samples (store_sample samples st tn).
Proof.
  intros (Hcount & Hmax & Hrows). unfold store_sample.
  destruct (_ && _ && bool_decide _) eqn:Hcond; [|done].
  apply andb_true_iff in Hcond as [_ Hlt].
  apply bool_decide_eq_true in Hlt.
  split; [|split]; cbn.
  - rewrite length_app. cbn. lia.
  - lia.
  - apply Forall_app. split; [done|].
    apply Forall_singleton, sample_length.
Qed.

Lemma step_consistent samples st tn :
  consistent samples st → consistent samples (fst (step samples st tn)).
Proof.
  intros Hst. unfold step. destruct (captured tn); [|done].
  pose proof (store_sample_consistent samples st tn Hst) as Hst1.
  case_bool_decide; [done|].
  destruct (pressed tn); [|done|]; cbn;
    case_bool_decide; by cbn.
Qed.

Lemma loop_consistent samples turns : ∀ st,
  consistent samples st → consistent samples (fst (loop samples st turns)).
Proof.
  induction turns as [|tn turns IH]; intros st Hst; [done|].
  cbn [loop]. pose proof (step_consistent samples st tn Hst) as Hstep.
  destruct (step samples st tn) as [st1 []]; [by apply IH | done | done].
Qed.

(** X12.  The table that [collect_data] builds is well formed: for every
    target and every stream of frames and keys, however the loop ends, the
    counter is the number of rows stored, there are no more rows than the
    target asks for (none for a target below 1), and every row has 126
    fields, one for each column of the header. *)
Theorem collected_table_well_formed samples turns :
  collected_samples (fst (loop samples initial turns))
  = Z.of_nat (length (data_samples (fst (loop samples initial turns))))
  ∧ (Z.of_nat (length (data_samples (fst (loop samples initial turns))))
     ≤ 0 `max` samples)%Z
  ∧ Forall (λ row, length row = length header)
      (data_samples (fst (loop samples initial turns))).
Proof.
  destruct (loop_consistent samples turns initial) as (Hcount & Hmax & Hrows).
  { split; [done|]. split; [cbn; lia | constructor]. }
  split; [done|]. split; [lia|].
  by assert (length header = 126) as -> by reflexivity.
Qed.

Lemma loop_paused samples turns : ∀ st,
  collecting st = false →
  Forall (λ tn, pressed tn ≠ key_s) turns →
  data_samples (fst (loop samples st turns)) = data_samples st.
Proof.
  induction turns as [|tn turns IH]; intros st Hoff Hkeys; [done|].
  apply Forall_cons in Hkeys as [Hkey Hkeys]. cbn [loop].
  assert (store_sample samples st tn = st) as Hstore.
  { unfold store_sample. by rewrite Hoff, andb_false_r. }
  unfold step. rewrite Hstore.
  destruct (captured tn); [|done].
  case_bool_decide; [done|].
  destruct (pressed tn); [done|done|].
  case_bool_decide; [done|]. by apply IH.
Qed.

(** X13.  Nothing is collected before the S key is pressed: over a stream
    of frames and keys without that key, the loop stores no row, and no
    file is written afterwards. *)
Theorem no_start_key_no_file samples turns :
  Forall (λ tn, pressed tn ≠ key_s) turns →
  data_samples (fst (loop samples initial turns)) = []
  ∧ saved (loop samples initial turns) = None.
Proof.
  intros Hkeys.
  pose proof (loop_paused samples turns initial eq_refl Hkeys) as Hrows.
  split; [done|]. unfold saved. rewrite Hrows.
  by destruct (snd (loop samples initial turns)).
Qed.

Lemma no_start_key_no_file_witness :
  saved (loop 200 initial
           [Turn true [Detection.diagonal_hand (Q2Qc (1 # 2))] key_other;
            Turn true [] key_q])
  = None.
Proof.
  apply (no_start_key_no_file 200). repeat constructor; discriminate.
Defined.




End collection.

(** ** File names and labels *)

Section names.
Import Names.

Implicit Types (s old sign : string).










Lemma load_fold_None (read_csv : string → option (list (list Qc))) files :
  foldl (λ acc csv_file,
           '(X, y) ← acc;
           let label := label_of csv_file in
           features ← read_csv csv_file;
           Some (X ++ features, y ++ replicate (length features) label))
        None files
  = None.
Proof. by induction files. Qed.

Lemma load_fold (read_csv : string → option (list (list Qc))) files : ∀ X y,
  foldl (λ acc csv_file,
           '(X, y) ← acc;
           let label := label_of csv_file in
           features ← read_csv csv_file;
           Some (X ++ features, y ++ replicate (length features) label))
        (Some (X, y)) files
  = (tables ← mapM read_csv files;
     Some (X ++ concat tables,
           y ++ concat (zip_with (λ f rows, replicate (length rows) (label_of f))
                          files tables))).
Proof.
  induction files as [|f files IH]; intros X y.
  - cbn. by rewrite !app_nil_r.
  - cbn [foldl mapM]. cbn [mbind option_bind].
    destruct (read_csv f) as [rows|]; cbn [mbind option_bind];
      [|apply load_fold_None].
    rewrite IH. destruct (mapM read_csv files) as [tables|]; [|done].
    cbn. by rewrite <- !app_assoc.
Qed.

Lemma csv_files_none (listing : list string) :
  filter (λ f, endswith f ".csv" = true) listing = []
  ↔ Forall (λ f, endswith f ".csv" = false) listing.
Proof.
  induction listing as [|f listing IH]; [by split; [constructor|]|].
  rewrite Forall_cons, <- IH.
  destruct (endswith f ".csv") eqn:Hf.
  - rewrite filter_cons_True by done. split; [done | by intros [? _]].
  - rewrite filter_cons_False by (by rewrite Hf). split; [done | by intros []].
Qed.

(** X16.  [load_data] and the directory.  It raises exactly when no name
    in the directory ends with [.csv], or one of the files with such a
    name cannot be read; and when it does not raise, the list of rows and
    the list of labels that it returns have the same length. *)
Theorem load_lists_aligned (listing : list string) read_csv :
  (load_lists listing read_csv = None ↔
   Forall (λ f, endswith f ".csv" = false) listing
   ∨ ∃ f, f ∈ listing ∧ endswith f ".csv" = true ∧ read_csv f = None)
  ∧ ∀ X y, load_lists listing read_csv = Some (X, y) → length X = length y.
Proof.
  unfold load_lists. rewrite <- csv_files_none.
  assert (∀ f, f ∈ filter (λ f, endswith f ".csv" = true) listing
               ↔ f ∈ listing ∧ endswith f ".csv" = true) as Hin.
  { intros f. rewrite list_elem_of_filter. tauto. }
  set (csv_files := filter _ listing) in *. split.
  - case_bool_decide as Hn.
    + split; [intros _; left; by destruct csv_files | done].
    + rewrite load_fold. cbn [app].
      destruct (mapM read_csv csv_files) as [tables|] eqn:Hread; cbn.
      * split; [done|]. intros [->|(f & Hf & Hcsv & Hnone)]; [done|].
        apply mapM_Some in Hread.
        assert (f ∈ csv_files) as Hfin by (by apply Hin).
        apply list_elem_of_lookup in Hfin as [i Hi].
        destruct (Forall2_lookup_l _ _ _ _ _ Hread Hi) as (rows & _ & Hrows).
        congruence.
      * split; [|done]. intros _. right.
        apply mapM_None, Exists_exists in Hread as (f & Hf & Hnone).
        exists f. apply Hin in Hf as [Hf Hcsv]. done.
  - intros X y. case_bool_decide; [done|].
    rewrite load_fold. cbn [app].
    destruct (mapM read_csv csv_files) as [tables|] eqn:Hread; [|done].
    cbn. intros [= <- <-]. apply length_mapM in Hread. clear -Hread.
    revert tables Hread.
    induction csv_files as [|f files IH]; intros [|rows tables] Hlen;
      try done.
    cbn. rewrite !length_app, length_replicate. f_equal. apply IH.
    cbn in Hlen. lia.
Qed.




End names.
